(** * XML2JSON: the event-driven tree builder and its accessors

    A shallow embedding of [src/index.js] (class [XML2JSON]) and of its later
    revision, which adds guards to the two accessors.  The three entry points
    ([parseFromUrl], [parseFromFile], [parse]) are textually identical in
    both files and are modelled once; the accessors are modelled per file
    (modules [Index] and [Revised]).

    The code is JavaScript that mutates objects shared between the result
    tree and a stack of open elements, so objects live in a heap and are
    passed by reference.  Handlers run in a state-and-exception monad.
    The operator [in] and property reads see the properties inherited from
    [Object.prototype], as they do in JavaScript.

    The file has two parts.  The first holds the embedding and the
    functions the statements are written with; the second holds the
    properties: the accessors and entry points first, then the heap and
    the tree a well-formed document leaves, from which the statements
    about children, siblings and attributes follow. *)

From Stdlib Require Import ZArith Ascii String.
From stdpp Require Import base option list gmap strings pretty.

Set Warnings "-register-all".

(** ** JavaScript values, objects and the heap *)

Module JS.

Abbreviation loc := nat.

(** The values the program handles.  Objects built by the program are on
    the heap and referred to by [VRef].  An attributes object comes from
    the lexical source and is never written by this program, and an array
    is only ever reached through the one property that owns it, so both
    are carried inline.  [VNative k] is what reading the property [k]
    inherited from [Object.prototype] yields. *)
Inductive value :=
| VUndefined
| VNull
| VBool (b : bool)
| VNum (n : Z)
| VStr (s : string)
| VNative (k : string)
| VAttrs (m : gmap string string)
| VArr (vs : list value)
| VRef (l : loc).

(** Own properties of a plain object. *)
Abbreviation obj := (gmap string value).
Abbreviation heap := (list (gmap string value)).

Inductive exn :=
| TypeError
| Error (message : string).

(** How a piece of code ends.  [Unmodelled] marks the operations this
    embedding does not cover: replacing an object's prototype through
    [__proto__], property reads on arrays, look-ups on functions and
    primitive wrappers, and [in] on an array for a name that only later
    editions of the language give to [Array.prototype]. *)
Inductive outcome (A : Type) :=
| Returns (a : A)
| Throws (e : exn)
| Unmodelled.
Arguments Returns {A} a.
Arguments Throws {A} e.
Arguments Unmodelled {A}.

#[global] Instance outcome_ret : MRet outcome := @Returns.
#[global] Instance outcome_bind : MBind outcome := λ A B f m,
  match m with
  | Returns a => f a
  | Throws e => Throws e
  | Unmodelled => Unmodelled
  end.
#[global] Instance outcome_fmap : FMap outcome := λ A B f m,
  match m with
  | Returns a => Returns (f a)
  | Throws e => Throws e
  | Unmodelled => Unmodelled
  end.

(** The property names every plain object inherits from
    [Object.prototype]. *)
Definition object_prototype : list string :=
  [ "constructor"; "__defineGetter__"; "__defineSetter__"; "hasOwnProperty";
    "__lookupGetter__"; "__lookupSetter__"; "isPrototypeOf";
    "propertyIsEnumerable"; "toString"; "valueOf"; "__proto__";
    "toLocaleString" ].

Definition inherited (k : string) : bool := bool_decide (k ∈ object_prototype).

Definition own {V} (o : gmap string V) (k : string) : bool :=
  bool_decide (is_Some (o !! k)).

(** [typeof v]. *)
Definition typeof (v : value) : string :=
  match v with
  | VUndefined => "undefined"
  | VBool _ => "boolean"
  | VNum _ => "number"
  | VStr _ => "string"
  | VNative k => if String.eqb k "__proto__" then "object" else "function"
  | VNull | VAttrs _ | VArr _ | VRef _ => "object"
  end.

(** [Array.isArray(v)]. *)
Definition isArray (v : value) : bool :=
  match v with VArr _ => true | _ => false end.

(** The property names an array inherits from [Array.prototype] in every
    edition of the language since ECMAScript 2015, [Object.prototype]'s
    apart, and the names later editions added, which an array has or not
    according to the runtime. *)
Definition array_prototype : list string :=
  [ "concat"; "copyWithin"; "entries"; "every"; "fill"; "filter"; "find";
    "findIndex"; "forEach"; "indexOf"; "join"; "keys"; "lastIndexOf"; "map";
    "pop"; "push"; "reduce"; "reduceRight"; "reverse"; "shift"; "slice";
    "some"; "sort"; "splice"; "unshift" ].

Definition array_prototype_later : list string :=
  [ "values"; "includes"; "flat"; "flatMap"; "at"; "findLast"; "findLastIndex";
    "toReversed"; "toSorted"; "toSpliced"; "with"; "group"; "groupToMap" ].

(** The own property names of an array of [n] elements: [length] and the
    indices below [n], written in decimal. *)
Definition array_own (n : nat) (k : string) : bool :=
  String.eqb k "length" || existsb (λ i, String.eqb (pretty i) k) (seq 0 n).

(** [k in v]: own or inherited property; a [TypeError] when the right
    operand is not an object.  An array has its indices, [length] and what
    it inherits from [Array.prototype] and [Object.prototype]. *)
Definition has_property (h : heap) (k : string) (v : value) : outcome bool :=
  match v with
  | VRef l =>
      match h !! l with
      | Some o => Returns (own o k || inherited k)
      | None => Unmodelled
      end
  | VAttrs m => Returns (own m k || inherited k)
  | VArr vs =>
      if bool_decide (k ∈ array_prototype_later) then Unmodelled
      else Returns (array_own (length vs) k
                    || bool_decide (k ∈ array_prototype) || inherited k)
  | VUndefined | VNull | VBool _ | VNum _ | VStr _ => Throws TypeError
  | VNative _ => Unmodelled
  end.

(** [v[k]] (also written [v.k]): the own property, else the inherited one,
    else [undefined]; a [TypeError] on [undefined] and [null]. *)
Definition get_property (h : heap) (v : value) (k : string) : outcome value :=
  match v with
  | VRef l =>
      match h !! l with
      | Some o =>
          Returns (match o !! k with
                   | Some x => x
                   | None => if inherited k then VNative k else VUndefined
                   end)
      | None => Unmodelled
      end
  | VAttrs m =>
      Returns (match m !! k with
               | Some s => VStr s
               | None => if inherited k then VNative k else VUndefined
               end)
  | VUndefined | VNull => Throws TypeError
  | VBool _ | VNum _ | VStr _ | VArr _ | VNative _ => Unmodelled
  end.

(** [v[k] = x] on a heap object.  Every inherited property but the
    accessor [__proto__] is a writable data property, so the assignment
    creates or overwrites an own property. *)
Definition set_property (h : heap) (v : value) (k : string) (x : value)
  : outcome heap :=
  match v with
  | VRef l =>
      match h !! l with
      | Some o =>
          if String.eqb k "__proto__" then Unmodelled
          else Returns (<[l := <[k := x]> o]> h)
      | None => Unmodelled
      end
  | VUndefined | VNull => Throws TypeError
  | VBool _ | VNum _ | VStr _ | VNative _ | VAttrs _ | VArr _ => Unmodelled
  end.

(** [delete v[k]]: removes an own property, never an inherited one. *)
Definition delete_property (h : heap) (v : value) (k : string) : outcome heap :=
  match v with
  | VRef l =>
      match h !! l with
      | Some o => Returns (<[l := delete k o]> h)
      | None => Unmodelled
      end
  | VUndefined | VNull => Throws TypeError
  | VBool _ | VNum _ | VStr _ | VNative _ | VAttrs _ | VArr _ => Unmodelled
  end.

(** [Object.getOwnPropertyNames(v)]. *)
Definition getOwnPropertyNames (h : heap) (v : value) : outcome (list string) :=
  match v with
  | VRef l =>
      match h !! l with
      | Some o => Returns (elements (dom o))
      | None => Unmodelled
      end
  | VAttrs m => Returns (elements (dom m))
  | VUndefined | VNull => Throws TypeError
  | VBool _ | VNum _ | VStr _ | VNative _ | VArr _ => Unmodelled
  end.

(** *** The tree a caller sees *)

(** A finished value with every reference followed.  [JDangling] stands
    for a reference that could not be followed (absent from the heap, or
    nested deeper than the fuel given). *)
Inductive json :=
| JUndefined
| JNull
| JBool (b : bool)
| JNum (n : Z)
| JStr (s : string)
| JNative (k : string)
| JAttrs (m : gmap string string)
| JArr (js : list json)
| JObj (o : gmap string json)
| JDangling.

Fixpoint snapshot (fuel : nat) (h : heap) (v : value) : json :=
  match v with
  | VUndefined => JUndefined
  | VNull => JNull
  | VBool b => JBool b
  | VNum n => JNum n
  | VStr s => JStr s
  | VNative k => JNative k
  | VAttrs m => JAttrs m
  | VArr vs =>
      match fuel with
      | S n => JArr (snapshot n h <$> vs)
      | O => JDangling
      end
  | VRef l =>
      match fuel, h !! l with
      | S n, Some o => JObj (snapshot n h <$> o)
      | _, _ => JDangling
      end
  end.

(** Objects and arrays alternate along a path of the tree, and every
    object on a path is a distinct heap cell. *)
Definition tree (h : heap) (v : value) : json :=
  snapshot (2 * length h + 1) h v.

End JS.
Import JS.

(** ** The lexical source

    [sax] is a package outside this repository.  [parse] registers
    handlers for the events below and ignores every other event. *)

Module Sax.

(** The argument of [onopentag]: [tag.name] and [tag.attributes]. *)
Record tag := Tag {
  name : string;
  attributes : gmap string string;
}.

Inductive event :=
| OpenTag (t : tag)
| Text (text : string)
| OpenCData
| CData (text : string)
| CloseCData
| CloseTag (tagName : string)
| SaxError (error : string).

End Sax.

(** ** The builder's mutable state *)

(** What the closures of [parse] share: the heap their objects live in, the
    array [elementsStack] (its last element is the head of the list), the
    variable [cdata], and what was written to the console. *)
Record store := Store {
  objects : heap;
  elementsStack : list value;
  cdata : string;
  console : list string;
}.

Definition M (A : Type) : Type := store → outcome (A * store).

#[global] Instance M_ret : MRet M := λ A a s, Returns (a, s).
#[global] Instance M_bind : MBind M := λ A B f m s,
  match m s with
  | Returns (a, s') => f a s'
  | Throws e => Throws e
  | Unmodelled => Unmodelled
  end.

(** [throw e]. *)
Definition throw {A} (e : exn) : M A := λ _, Throws e.
Definition unmodelled {A} : M A := λ _, Unmodelled.

Definition lift_read {A} (f : heap → outcome A) : M A :=
  λ s, a ← f (objects s); Returns (a, s).

Definition lift_write (f : heap → outcome heap) : M unit :=
  λ s, h ← f (objects s);
       Returns ((), Store h (elementsStack s) (cdata s) (console s)).

(** [{ ... }]: a fresh object. *)
Definition alloc (o : obj) : M value :=
  λ s, Returns (VRef (length (objects s)),
                Store (objects s ++ [o]) (elementsStack s) (cdata s) (console s)).

Definition has (k : string) (v : value) : M bool :=
  lift_read (λ h, has_property h k v).
Definition get (v : value) (k : string) : M value :=
  lift_read (λ h, get_property h v k).
Definition set (v : value) (k : string) (x : value) : M unit :=
  lift_write (λ h, set_property h v k x).
Definition del (v : value) (k : string) : M unit :=
  lift_write (λ h, delete_property h v k).
Definition ownPropertyNames (v : value) : M (list string) :=
  lift_read (λ h, getOwnPropertyNames h v).

(** [elementsStack.pop()]: [undefined] on an empty array. *)
Definition pop : M value :=
  λ s, match elementsStack s with
       | [] => Returns (VUndefined, s)
       | v :: rest => Returns (v, Store (objects s) rest (cdata s) (console s))
       end.

(** [elementsStack.push(v)]. *)
Definition push (v : value) : M unit :=
  λ s, Returns ((), Store (objects s) (v :: elementsStack s) (cdata s) (console s)).

Definition read_cdata : M string := λ s, Returns (cdata s, s).
Definition write_cdata (c : string) : M unit :=
  λ s, Returns ((), Store (objects s) (elementsStack s) c (console s)).

(** [console.log(line)]. *)
Definition console_log (line : string) : M unit :=
  λ s, Returns ((), Store (objects s) (elementsStack s) (cdata s) (console s ++ [line])).

(** [v[k].push(x)].  The array is owned by the property, so pushing
    rewrites the property; calling [push] on anything that is not an array
    is a [TypeError]. *)
Definition array_push (v : value) (k : string) (x : value) : M unit :=
  a ← get v k;
  match a with
  | VArr vs => set v k (VArr (vs ++ [x]))
  | _ => throw TypeError
  end.

(** [v[k][v[k].length - 1]]. *)
Definition array_last (v : value) (k : string) : M value :=
  a ← get v k;
  match a with
  | VArr vs => mret (List.last vs VUndefined)
  | _ => unmodelled
  end.

(** [{ name: tagName, attr: tagAttributes }]. *)
Definition element_literal (tagName : string) (tagAttributes : gmap string string) : obj :=
  <["attr" := VAttrs tagAttributes]> (<["name" := VStr tagName]> ∅).

(** ** The handlers of [parse] *)

Section Handlers.

(** The constant [jsonObj] the handlers close over. *)
Variable jsonObj : value.

Definition onerror (error : string) : M unit :=
  console_log ("error: " +:+ error).

Definition onopentag (tag : Sax.tag) : M unit :=
  let tagName := Sax.name tag in
  let tagAttributes := Sax.attributes tag in
  names ← ownPropertyNames jsonObj;
  if negb (Nat.eqb (length names) 0) then
    parentElement ← pop;
    present ← has tagName parentElement;
    if (present : bool) then
      existing ← get parentElement tagName;
      if isArray existing then
        node ← alloc (element_literal tagName tagAttributes);
        array_push parentElement tagName node;;
        push parentElement;;
        newest ← array_last parentElement tagName;
        push newest
      else
        elementTmp ← get parentElement tagName;
        del parentElement tagName;;
        set parentElement tagName (VArr []);;
        array_push parentElement tagName elementTmp;;
        node ← alloc (element_literal tagName tagAttributes);
        array_push parentElement tagName node;;
        push parentElement;;
        newest ← array_last parentElement tagName;
        push newest
    else
      node ← alloc (element_literal tagName tagAttributes);
      set parentElement tagName node;;
      push parentElement;;
      child ← get parentElement tagName;
      push child
  else
    node ← alloc (element_literal tagName tagAttributes);
    set jsonObj tagName node;;
    root ← get jsonObj tagName;
    push root.

Definition ontext (text : string) : M unit :=
  element ← pop;
  set element "innerText" (VStr text);;
  push element.

Definition onopencdata : M unit := write_cdata "".

Definition oncdata (text : string) : M unit :=
  c ← read_cdata;
  write_cdata (c +:+ text).

Definition onclosecdata : M unit :=
  element ← pop;
  c ← read_cdata;
  set element "innerText" (VStr c);;
  push element;;
  write_cdata "".

Definition onclosetag : M unit :=
  pop;; mret ().

(** The handler the lexical source calls for one event. *)
Definition emit (e : Sax.event) : M unit :=
  match e with
  | Sax.OpenTag t => onopentag t
  | Sax.Text text => ontext text
  | Sax.OpenCData => onopencdata
  | Sax.CData text => oncdata text
  | Sax.CloseCData => onclosecdata
  | Sax.CloseTag _ => onclosetag
  | Sax.SaxError error => onerror error
  end.

(** [parser.write(xmlSource)]: the handlers run in event order; an
    exception leaves through [write]. *)
Fixpoint write (events : list Sax.event) : M unit :=
  match events with
  | [] => mret ()
  | e :: rest => emit e;; write rest
  end.

(** [onend]: [callback(jsonObj)].  The callback receives the root object;
    what it can read from it is the tree below. *)
Definition onend : M json :=
  λ s, Returns (tree (objects s) jsonObj, s).

End Handlers.

(** ** The entry points *)

Definition empty_store : store := Store [] [] "" [].

(** The callback is called from [onend] and nowhere else: a run that
    returns has called it once, with the value returned here, and a run
    that throws has not called it.  Nothing is recorded for a run that
    leaves the embedding. *)
Definition callback_calls {A} (r : outcome A) : list A :=
  match r with
  | Returns a => [a]
  | Throws _ | Unmodelled => []
  end.

(** The options object handed to [request.get]. *)
Record request_options := RequestOptions {
  uri : string;
  method : string;
  followRedirect : bool;
  maxRedirects : Z;
  encoding : string;
  timeout : Z;
}.

(** What [request.get] hands to its callback on success. *)
Record response := Response {
  statusCode : Z;
  body : string;
}.

Section EntryPoints.

(** The events [xmlParser(false, { lowercase: true, position: false,
    trim: true })] emits, in order, while [xmlSource] is written to it and
    it is closed, the final [end] event apart. *)
Variable sax : string → list Sax.event.

(** [fs.readFile(filePath, { encoding: 'utf-8' }, ...)]: the error, or the
    text read. *)
Variable readFile : string → string + string.

(** [request.get(options, ...)]: the error, or the response. *)
Variable getRequest : request_options → string + response.

Definition parse (xmlSource : string) : outcome json :=
  fst <$> (jsonObj ← alloc ∅;
           write jsonObj (sax xmlSource);;
           onend jsonObj) empty_store.

Definition parseFromFile (filePath : string) : outcome json :=
  match readFile filePath with
  | inr data => parse data
  | inl error => Throws (Error ("An error occurred: " +:+ error))
  end.

Definition parseFromUrl (url : string) (followRedirect : bool) (maxRedirects : Z)
    (encoding : string) (timeout : Z) : outcome json :=
  match getRequest (RequestOptions url "GET" followRedirect maxRedirects encoding timeout) with
  | inr response =>
      if Z.eqb (statusCode response) 200 then parse (body response)
      else Throws (Error ("An HTTP error occurred with status code: "
                          +:+ pretty (statusCode response)))
  | inl error => Throws (Error ("An error occurred: " +:+ error))
  end.

End EntryPoints.

(** ** The accessors *)

Definition is_undefined (v : value) : bool :=
  match v with VUndefined => true | _ => false end.
Definition is_null (v : value) : bool :=
  match v with VNull => true | _ => false end.

(** [src/index.js]. *)
Module Index.

Definition getElementAttr (h : heap) (element : value) (attr : string) : outcome value :=
  attrs ← get_property h element "attr";
  present ← has_property h attr attrs;
  if (present : bool) then get_property h attrs attr
  else Returns VNull.

Definition getElementText (h : heap) (element : value) : outcome value :=
  hasInnerText ← has_property h "innerText" element;
  if (hasInnerText : bool) then get_property h element "innerText"
  else
    attrs ← get_property h element "attr";
    hasText ← has_property h "text" attrs;
    if (hasText : bool) then get_property h attrs "text"
    else Returns VNull.

End Index.

(** The revision of [src/index.js] whose accessors are guarded. *)
Module Revised.

Definition not_an_object (element : value) : bool :=
  is_undefined element || is_null element || negb (String.eqb (typeof element) "object").

Definition getElementAttr (h : heap) (element : value) (attr : string) : outcome value :=
  if not_an_object element then Returns VUndefined
  else
    attrs ← get_property h element "attr";
    present ← has_property h attr attrs;
    if (present : bool) then get_property h attrs attr
    else Returns VUndefined.

Definition getElementText (h : heap) (element : value) : outcome value :=
  if not_an_object element then Returns VUndefined
  else
    hasInnerText ← has_property h "innerText" element;
    if (hasInnerText : bool) then get_property h element "innerText"
    else
      attrs ← get_property h element "attr";
      hasText ← has_property h "text" attrs;
      if (hasText : bool) then get_property h attrs "text"
      else Returns VUndefined.

End Revised.

(** ** A reference lexical source

    Modelled from the spec: the lexical source is the [sax] package, which
    is not part of this repository.  The scanner below follows the options
    [parse] passes (non-strict, [lowercase], [trim]) on the fragment of XML
    the examples need: elements with quoted attribute values, text without
    entities, and CDATA sections.  It instantiates the variable [sax] of
    the entry points on concrete documents; no theorem about the builder
    depends on it. *)

Module SaxReference.

Definition code (c : ascii) : nat := nat_of_ascii c.

(** The double quote. *)
Definition quote : ascii := ascii_of_nat 34.

Definition is_space (c : ascii) : bool :=
  Nat.eqb (code c) 32 || (Nat.leb 9 (code c) && Nat.leb (code c) 13).

Definition lower (c : ascii) : ascii :=
  if Nat.leb 65 (code c) && Nat.leb (code c) 90 then ascii_of_nat (code c + 32) else c.

(** Letters, digits, [-], [.], [:] and [_]. *)
Definition is_name_char (c : ascii) : bool :=
  let n := code (lower c) in
  (Nat.leb 97 n && Nat.leb n 122) || (Nat.leb 48 n && Nat.leb n 58)
  || Nat.eqb n 45 || Nat.eqb n 46 || Nat.eqb n 95.

Fixpoint take_while (p : ascii → bool) (l : list ascii) : list ascii :=
  match l with
  | c :: l' => if p c then c :: take_while p l' else []
  | [] => []
  end.

Fixpoint drop_while (p : ascii → bool) (l : list ascii) : list ascii :=
  match l with
  | c :: l' => if p c then drop_while p l' else l
  | [] => []
  end.

Definition span (p : ascii → bool) (l : list ascii) : list ascii * list ascii :=
  (take_while p l, drop_while p l).

Definition text_of (l : list ascii) : string := string_of_list_ascii l.

Definition trim (l : list ascii) : list ascii :=
  reverse (drop_while is_space (reverse (drop_while is_space l))).

Definition starts_with (p l : list ascii) : bool :=
  bool_decide (take (length p) l = p).

(** Cuts [l] at the first occurrence of [p]. *)
Fixpoint cut_at (p l : list ascii) : option (list ascii * list ascii) :=
  if starts_with p l then Some ([], drop (length p) l)
  else match l with
       | [] => None
       | c :: l' => '(before, after) ← cut_at p l'; Some (c :: before, after)
       end.

(** [closeText]: the pending text, trimmed, unless nothing is left of it. *)
Definition closeText (textNode : list ascii) : list Sax.event :=
  match trim textNode with
  | [] => []
  | t => [Sax.Text (text_of t)]
  end.

(** The attributes of an open tag, up to its [>] or [/>]: the attribute
    map, whether the tag closes itself, and the rest of the input. *)
Fixpoint scan_attributes (fuel : nat) (m : gmap string string) (l : list ascii)
  : option (gmap string string * bool * list ascii) :=
  match fuel with
  | O => None
  | S fuel =>
      match drop_while is_space l with
      | ">" :: rest => Some (m, false, rest)
      | "/" :: ">" :: rest => Some (m, true, rest)
      | l' =>
          let '(attribName, l'') := span is_name_char l' in
          match attribName, drop_while is_space l'' with
          | _ :: _, "=" :: l3 =>
              match drop_while is_space l3 with
              | q :: l4 =>
                  if bool_decide (q = quote) || bool_decide (q = "'"%char) then
                    '(attribValue, rest) ← cut_at [q] l4;
                    scan_attributes fuel
                      (<[text_of (lower <$> attribName) := text_of attribValue]> m) rest
                  else None
              | [] => None
              end
          | _, _ => None
          end
      end
  end%char.

(** [closeTag]: one [closetag] event per open tag down to the matching one,
    which closes every tag left open inside it. *)
Fixpoint closeTag (tagName : string) (tags : list string)
  : option (list Sax.event * list string) :=
  match tags with
  | [] => None
  | t :: tags' =>
      if String.eqb t tagName then Some ([Sax.CloseTag t], tags')
      else '(es, tags'') ← closeTag tagName tags'; Some (Sax.CloseTag t :: es, tags'')
  end.

Fixpoint scan (fuel : nat) (tags : list string) (closedRoot : bool)
    (textNode : list ascii) (l : list ascii) : list Sax.event :=
  match fuel with
  | O => []
  | S fuel =>
      match l with
      | [] => closeText textNode
      | "<" :: rest =>
          if closedRoot then scan fuel tags closedRoot (textNode ++ ["<"]) rest
          else if starts_with (list_ascii_of_string "![CDATA[") rest then
            match cut_at (list_ascii_of_string "]]>") (drop 8 rest) with
            | Some (content, rest') =>
                closeText textNode ++ [Sax.OpenCData]
                ++ match content with [] => [] | _ => [Sax.CData (text_of content)] end
                ++ [Sax.CloseCData] ++ scan fuel tags closedRoot [] rest'
            | None => closeText textNode
            end
          else
            match rest with
            | "/" :: rest' =>
                let '(tagName, rest'') := span is_name_char rest' in
                match drop_while is_space rest'' with
                | ">" :: rest3 =>
                    match closeTag (text_of (lower <$> tagName)) tags with
                    | Some (es, tags') =>
                        closeText textNode ++ es
                        ++ scan fuel tags' (bool_decide (tags' = [])) [] rest3
                    | None =>
                        scan fuel tags closedRoot
                          (textNode ++ "<" :: "/" :: tagName ++ [">"]) rest3
                    end
                | _ => closeText textNode
                end
            | _ =>
                let '(tagName, rest') := span is_name_char rest in
                match tagName, scan_attributes (S (length rest')) ∅ rest' with
                | _ :: _, Some (attributes, selfClosing, rest'') =>
                    let name := text_of (lower <$> tagName) in
                    closeText textNode ++ [Sax.OpenTag (Sax.Tag name attributes)]
                    ++ (if (selfClosing : bool)
                        then Sax.CloseTag name
                             :: scan fuel tags (bool_decide (tags = [])) [] rest''
                        else scan fuel (name :: tags) false [] rest'')
                | _, _ => closeText textNode
                end
            end
      | c :: rest => scan fuel tags closedRoot (textNode ++ [c]) rest
      end
  end%char.

Definition sax (xmlSource : string) : list Sax.event :=
  let l := list_ascii_of_string xmlSource in
  scan (S (length l)) [] false [] l.

End SaxReference.


(** ** Documents used as examples *)

(** The string made of one double quote. *)
Definition dq : string := String SaxReference.quote "".

Definition open_tag (tagName : string) (attrs : gmap string string) : Sax.event :=
  Sax.OpenTag (Sax.Tag tagName attrs).

(** An object given by its fields. *)
Definition object (fields : list (string * json)) : json :=
  JObj (list_to_map fields).

(** [<a x="1"><b>hi</b><b>bye</b></a>] *)
Definition roundtrip_document : string :=
  "<a x=" +:+ dq +:+ "1" +:+ dq +:+ "><b>hi</b><b>bye</b></a>".

Definition roundtrip_events : list Sax.event :=
  [ open_tag "a" {[ "x" := "1" ]};
    open_tag "b" ∅; Sax.Text "hi"; Sax.CloseTag "b";
    open_tag "b" ∅; Sax.Text "bye"; Sax.CloseTag "b";
    Sax.CloseTag "a" ].

Definition roundtrip_tree : json :=
  object [ ("a", object [ ("name", JStr "a");
                          ("attr", JAttrs {[ "x" := "1" ]});
                          ("b", JArr [ object [ ("name", JStr "b"); ("attr", JAttrs ∅);
                                                ("innerText", JStr "hi") ];
                                       object [ ("name", JStr "b"); ("attr", JAttrs ∅);
                                                ("innerText", JStr "bye") ] ]) ]) ].

Definition cdata_then_text_document : string := "<a><![CDATA[keep]]>drop</a>".
Definition text_then_cdata_document : string := "<a>drop<![CDATA[keep]]></a>".

Definition cdata_then_text_events : list Sax.event :=
  [ open_tag "a" ∅; Sax.OpenCData; Sax.CData "keep"; Sax.CloseCData;
    Sax.Text "drop"; Sax.CloseTag "a" ].

Definition text_then_cdata_events : list Sax.event :=
  [ open_tag "a" ∅; Sax.Text "drop"; Sax.OpenCData; Sax.CData "keep";
    Sax.CloseCData; Sax.CloseTag "a" ].

(** [{ a: { name: 'a', attr: {}, innerText: text } }] *)
Definition lone_element_with_text (text : string) : json :=
  object [ ("a", object [ ("name", JStr "a"); ("attr", JAttrs ∅);
                          ("innerText", JStr text) ]) ].

(** The events that reach no handler which reads the top of
    [elementsStack]. *)
Definition touches_no_element (e : Sax.event) : Prop :=
  match e with
  | Sax.OpenCData | Sax.CData _ | Sax.CloseTag _ | Sax.SaxError _ => True
  | Sax.OpenTag _ | Sax.Text _ | Sax.CloseCData => False
  end.

(** [<a><name/><name/></a>]: two children whose tag is the key of the
    parent's own [name] field. *)
Definition two_name_children_document : string := "<a><name/><name/></a>".

Definition two_name_children_events : list Sax.event :=
  [ open_tag "a" ∅;
    open_tag "name" ∅; Sax.CloseTag "name";
    open_tag "name" ∅; Sax.CloseTag "name";
    Sax.CloseTag "a" ].

Definition two_name_children_tree : json :=
  object [ ("a", object [ ("attr", JAttrs ∅);
                          ("name", JArr [ JStr "a";
                                          object [ ("name", JStr "name"); ("attr", JAttrs ∅) ];
                                          object [ ("name", JStr "name"); ("attr", JAttrs ∅) ] ]) ]) ].

(** [<a><name/></a>] *)
Definition one_name_child_document : string := "<a><name/></a>".

Definition one_name_child_events : list Sax.event :=
  [ open_tag "a" ∅; open_tag "name" ∅; Sax.CloseTag "name"; Sax.CloseTag "a" ].

Definition one_name_child_tree : json :=
  object [ ("a", object [ ("attr", JAttrs ∅);
                          ("name", JArr [ JStr "a";
                                          object [ ("name", JStr "name"); ("attr", JAttrs ∅) ] ]) ]) ].

(** [<a x="1"><attr/></a>] *)
Definition attr_child_document : string :=
  "<a x=" +:+ dq +:+ "1" +:+ dq +:+ "><attr/></a>".

Definition attr_child_events : list Sax.event :=
  [ open_tag "a" {[ "x" := "1" ]}; open_tag "attr" ∅; Sax.CloseTag "attr";
    Sax.CloseTag "a" ].

Definition attr_child_tree : json :=
  object [ ("a", object [ ("name", JStr "a");
                          ("attr", JArr [ JAttrs {[ "x" := "1" ]};
                                          object [ ("name", JStr "attr"); ("attr", JAttrs ∅) ] ]) ]) ].

(** [<a><b/><c/><b/></a>] *)
Definition interleaved_document : string := "<a><b/><c/><b/></a>".

(** [<a><b><c>text</c></b><d/></a>] *)
Definition nested_document : string := "<a><b><c>text</c></b><d/></a>".

(** [j.k] on a finished tree. *)
Definition field (k : string) (j : json) : option json :=
  match j with
  | JObj o => o !! k
  | _ => None
  end.

(** ** Well-formed documents

    What the specification calls a well-nested event stream: the events
    of one root element.  An element holds, in document order, its child
    elements, its text runs and its CDATA sections (each a list of
    chunks). *)

Inductive xml :=
| Element (tagName : string) (attrs : gmap string string) (content : list xml)
| Chars (text : string)
| CDataSection (chunks : list string).

Definition interleaved_content : list xml :=
  [ Element "b" ∅ []; Element "c" ∅ []; Element "b" ∅ [] ].

Definition nested_content : list xml :=
  [ Element "b" ∅ [ Element "c" ∅ [ Chars "text" ] ]; Element "d" ∅ [] ].

Definition roundtrip_content : list xml :=
  [ Element "b" ∅ [ Chars "hi" ]; Element "b" ∅ [ Chars "bye" ] ].

(** The events the lexical source emits for a document. *)
Fixpoint events_of (x : xml) : list Sax.event :=
  match x with
  | Element tagName attrs content =>
      open_tag tagName attrs :: flat_map events_of content ++ [Sax.CloseTag tagName]
  | Chars text => [Sax.Text text]
  | CDataSection chunks => Sax.OpenCData :: (Sax.CData <$> chunks) ++ [Sax.CloseCData]
  end.

(** The number of elements of a document, and the longest chain of nested
    elements. *)
Fixpoint size (x : xml) : nat :=
  match x with
  | Element _ _ content => S (sum_list_with size content)
  | Chars _ | CDataSection _ => 0
  end.

Fixpoint height (x : xml) : nat :=
  match x with
  | Element _ _ content => S (max_list_with height content)
  | Chars _ | CDataSection _ => 0
  end.

Definition tag_of (x : xml) : option string :=
  match x with
  | Element k _ _ => Some k
  | Chars _ | CDataSection _ => None
  end.

(** The child elements tagged [k], in document order. *)
Definition children_tagged (k : string) (content : list xml) : list xml :=
  filter (λ c, tag_of c = Some k) content.

Definition child_tags (content : list xml) : list string := omap tag_of content.

(** The elements of a document: the root and its descendants. *)
Fixpoint subelements (x : xml) : list xml :=
  match x with
  | Element _ _ content => x :: flat_map subelements content
  | Chars _ | CDataSection _ => []
  end.

Fixpoint every_tag (p : string → bool) (x : xml) : bool :=
  match x with
  | Element t _ content => p t && forallb (every_tag p) content
  | Chars _ | CDataSection _ => true
  end.

(** No element is tagged [__proto__]: the handlers never assign to
    [__proto__], so they stay within the embedding. *)
Definition modelled (x : xml) : bool :=
  every_tag (λ t, negb (String.eqb t "__proto__")) x.

(** The keys a node holds for itself. *)
Definition own_fields : list string := ["name"; "attr"; "innerText"].

(** The keys that [in] finds in a node before any child is attached, or
    that a text event writes. *)
Definition reserved (k : string) : bool :=
  bool_decide (k ∈ own_fields) || inherited k.

(** No child element, at any depth, is tagged with a reserved key. *)
Fixpoint tidy (x : xml) : bool :=
  match x with
  | Element _ _ content =>
      forallb (λ c, match tag_of c with
                    | Some k => negb (reserved k)
                    | None => true
                    end && tidy c) content
  | Chars _ | CDataSection _ => true
  end.

(** No two sibling elements share a tag, at any depth. *)
Fixpoint distinct_siblings (x : xml) : bool :=
  match x with
  | Element _ _ content =>
      bool_decide (NoDup (child_tags content)) && forallb distinct_siblings content
  | Chars _ | CDataSection _ => true
  end.

(** ** What the handlers do to the heap, as functions *)

(** The open tag of a child tagged [k], seen from the parent object [o]:
    the three branches of [onopentag], with [v] the reference to the new
    node. *)
Definition attach (o : obj) (k : string) (v : value) : obj :=
  if own o k || inherited k then
    match default (VNative k) (o !! k) with
    | VArr vs => <[k := VArr (vs ++ [v])]> o
    | e => <[k := VArr [e; v]]> o
    end
  else <[k := v]> o.

(** The chunks of a CDATA section, as [oncdata] accumulates them. *)
Definition joined (chunks : list string) : string := foldr String.append "" chunks.

(** What one item of an element's content does to the element's object;
    [next] is where the item's first node is allocated. *)
Definition absorb (next : nat) (o : obj) (x : xml) : obj :=
  match x with
  | Element tagName _ _ => attach o tagName (VRef next)
  | Chars text => <["innerText" := VStr text]> o
  | CDataSection chunks => <["innerText" := VStr (joined chunks)]> o
  end.

Fixpoint fill (next : nat) (o : obj) (content : list xml) : obj :=
  match content with
  | [] => o
  | x :: rest => fill (next + size x) (absorb next o x) rest
  end.

(** The heap cells of a document whose root node is allocated at [n]:
    the node of the root, then the cells of its child elements in
    document order. *)
Fixpoint cells (n : nat) (x : xml) : list obj :=
  match x with
  | Element tagName attrs content =>
      fill (S n) (element_literal tagName attrs) content
      :: (fix content_cells (n : nat) (content : list xml) : list obj :=
            match content with
            | [] => []
            | x :: rest => cells n x ++ content_cells (n + size x) rest
            end) (S n) content
  | Chars _ | CDataSection _ => []
  end.

Fixpoint content_cells (n : nat) (content : list xml) : list obj :=
  match content with
  | [] => []
  | x :: rest => cells n x ++ content_cells (n + size x) rest
  end.

(** ** The tree of a document *)

(** [attach] on finished values. *)
Definition jattach (o : gmap string json) (k : string) (j : json) : gmap string json :=
  if own o k || inherited k then
    match default (JNative k) (o !! k) with
    | JArr js => <[k := JArr (js ++ [j])]> o
    | e => <[k := JArr [e; j]]> o
    end
  else <[k := j]> o.

Definition jliteral (tagName : string) (attrs : gmap string string) : gmap string json :=
  <["attr" := JAttrs attrs]> (<["name" := JStr tagName]> ∅).

(** The node the builder makes for an element: the literal of its open
    tag, to which the items of its content are applied in document
    order. *)
Fixpoint json_of (x : xml) : json :=
  match x with
  | Element tagName attrs content =>
      JObj (foldl (λ o c,
                     match c with
                     | Element k _ _ => jattach o k (json_of c)
                     | Chars text => <["innerText" := JStr text]> o
                     | CDataSection chunks => <["innerText" := JStr (joined chunks)]> o
                     end) (jliteral tagName attrs) content)
  | Chars text => JStr text
  | CDataSection chunks => JStr (joined chunks)
  end.

Definition jabsorb (o : gmap string json) (c : xml) : gmap string json :=
  match c with
  | Element k _ _ => jattach o k (json_of c)
  | Chars text => <["innerText" := JStr text]> o
  | CDataSection chunks => <["innerText" := JStr (joined chunks)]> o
  end.

(** What a key holds for the nodes attached under it: nothing, the lone
    node, or their sequence. *)
Definition slot (js : list json) : option json :=
  match js with
  | [] => None
  | [j] => Some j
  | _ => Some (JArr js)
  end.

(** An element node all of whose child keys, at any depth, hold a lone
    element node. *)
Inductive lone_tree : json → Prop :=
| lone_tree_node (o : gmap string json) (n : string) (a : gmap string string) :
    o !! "name" = Some (JStr n) →
    o !! "attr" = Some (JAttrs a) →
    (∀ k j, o !! k = Some j → k ∉ own_fields → lone_tree j) →
    lone_tree (JObj o).

(** [occurs j t]: the tree [t] holds [j], as itself, under a key, or in a
    sequence. *)
Inductive occurs (j : json) : json → Prop :=
| occurs_here : occurs j j
| occurs_field (o : gmap string json) (k : string) (j' : json) :
    o !! k = Some j' → occurs j j' → occurs j (JObj o)
| occurs_item (js : list json) (j' : json) :
    j' ∈ js → occurs j j' → occurs j (JArr js).

(** ** Invariants used in the proofs *)

(** What running the events of [x] does when the element at [q] is open
    and the root object at [r] is [ro]. *)
Definition runs (r : loc) (ro : obj) (x : xml) : Prop :=
  ∀ (H : heap) (q : loc) (qo : obj) (rest : list value) (con : list string),
    H !! r = Some ro → r ≠ q → H !! q = Some qo →
    write (VRef r) (events_of x) (Store H (VRef q :: rest) "" con)
    = Returns ((), Store (<[q := absorb (length H) qo x]> H ++ cells (length H) x)
                         (VRef q :: rest) "" con).

(** The cells [cs] are in the heap from location [n] on. *)
Definition placed (H : heap) (n : nat) (cs : list obj) : Prop :=
  ∃ P S, H = P ++ cs ++ S ∧ length P = n.

(** Every value of [o] that is not an array reads the same with one unit
    of fuel more. *)
Definition lone_stable (f : nat) (H : heap) (o : obj) : Prop :=
  ∀ k v, o !! k = Some v → isArray v = false → snapshot f H v = snapshot (S f) H v.

(** The node of an element reads as [json_of] says, wherever its cells
    are in the heap. *)
Definition reads (x : xml) : Prop :=
  match x with
  | Element _ _ _ =>
      ∀ (H : heap) (n f : nat),
        placed H n (cells n x) → 2 * height x ≤ f → snapshot f H (VRef n) = json_of x
  | Chars _ | CDataSection _ => True
  end.

(** Every object of [h] that has an [attr] field has it in [h'], with
    the same value. *)
Definition keeps_attr (h h' : heap) : Prop :=
  ∀ l o v, h !! l = Some o → o !! "attr" = Some v →
           ∃ o', h' !! l = Some o' ∧ o' !! "attr" = Some v.

Definition frame {A} (m : M A) : Prop :=
  ∀ s a s', m s = Returns (a, s') → keeps_attr (objects s) (objects s').

(** The events that are not the open tag of an element named [attr]. *)
Definition opens_no_attr (e : Sax.event) : Prop :=
  match e with
  | Sax.OpenTag tag => Sax.name tag ≠ "attr"
  | _ => True
  end.

(** ** Any stream of events *)

Definition opens_no_proto (e : Sax.event) : Prop :=
  match e with
  | Sax.OpenTag tag => Sax.name tag ≠ "__proto__"
  | _ => True
  end.

(** The events whose handler reads the top of [elementsStack]: the others
    are those of [touches_no_element]. *)
Definition needs_element (e : Sax.event) : Prop :=
  match e with
  | Sax.OpenTag _ | Sax.Text _ | Sax.CloseCData => True
  | Sax.OpenCData | Sax.CData _ | Sax.CloseTag _ | Sax.SaxError _ => False
  end.

(** What the handlers ask of the state: the key of [jsonObj], if it has
    one yet, and the number of elements on [elementsStack].  [advance] is
    [None] where the handler of the event meets [undefined] on the stack:
    [onopentag] once [jsonObj] has a key, [ontext] and [onclosecdata]. *)
Definition advance (c : option string * nat) (e : Sax.event)
  : option (option string * nat) :=
  match e with
  | Sax.OpenTag tag =>
      match c with
      | (None, depth) => Some (Some (Sax.name tag), S depth)
      | (Some _, O) => None
      | (Some root, S depth) => Some (Some root, S (S depth))
      end
  | Sax.Text _ | Sax.CloseCData =>
      match c with
      | (_, O) => None
      | (_, S _) => Some c
      end
  | Sax.CloseTag _ => Some (c.1, pred c.2)
  | Sax.OpenCData | Sax.CData _ | Sax.SaxError _ => Some c
  end.

Fixpoint track (c : option string * nat) (events : list Sax.event)
  : option (option string * nat) :=
  match events with
  | [] => Some c
  | e :: rest =>
      match advance c e with
      | Some c' => track c' rest
      | None => None
      end
  end.

(** The tag of the first open-tag event. *)
Fixpoint first_open_tag (events : list Sax.event) : option string :=
  match events with
  | [] => None
  | Sax.OpenTag tag :: _ => Some (Sax.name tag)
  | _ :: rest => first_open_tag rest
  end.

(** The state after some events, as [c] counts it: [jsonObj], at location
    0, is empty or holds one reference under the root key, and the stack
    holds [c.2] references to objects other than [jsonObj]. *)
Definition counted (c : option string * nat) (s : store) : Prop :=
  (∃ ro, objects s !! 0 = Some ro
         ∧ match c.1 with
           | None => ro = ∅ ∧ c.2 = 0
           | Some t => ∃ l, ro = {[ t := VRef l ]}
           end)
  ∧ length (elementsStack s) = c.2
  ∧ Forall (λ v, ∃ q, v = VRef q ∧ 0 < q < length (objects s)) (elementsStack s).

(** ** Lexical errors *)

Definition is_error (e : Sax.event) : bool :=
  match e with
  | Sax.SaxError _ => true
  | _ => false
  end.

(** The lines [onerror] writes for a stream of events. *)
Definition error_lines (events : list Sax.event) : list string :=
  omap (λ e, match e with
             | Sax.SaxError error => Some ("error: " +:+ error)
             | _ => None
             end) events.

Definition with_console (c : list string) (s : store) : store :=
  Store (objects s) (elementsStack s) (cdata s) c.

Definition relog {A} (c : list string) (r : outcome (A * store)) : outcome (A * store) :=
  match r with
  | Returns (a, s) => Returns (a, with_console c s)
  | Throws e => Throws e
  | Unmodelled => Unmodelled
  end.

(** A computation that neither reads the console nor writes to it. *)
Definition silent {A} (m : M A) : Prop :=
  ∀ s c, m (with_console c s) = relog c (m s).

(** ** Text and keys of a node *)

(** The text an item of content assigns to [innerText], and the key an
    item of content writes. *)
Definition item_text (c : xml) : option string :=
  match c with
  | Element _ _ _ => None
  | Chars text => Some text
  | CDataSection chunks => Some (joined chunks)
  end.

Definition texts (content : list xml) : list string := omap item_text content.

Definition key_of (c : xml) : string :=
  match c with
  | Element k _ _ => k
  | Chars _ | CDataSection _ => "innerText"
  end.

(** ** The request of [parseFromUrl] *)

(** The options [parseFromUrl] hands to [request.get]. *)
Definition get_options (url : string) (followRedirect : bool) (maxRedirects : Z)
    (encoding : string) (timeout : Z) : request_options :=
  RequestOptions url "GET" followRedirect maxRedirects encoding timeout.

(** ** What the callback can reach *)

(** [parse] with the callback handed the heap itself: the reference
    [jsonObj] and the objects it points into, as they are when [onend]
    runs.  The accessors are called on references read from there. *)
Definition parse_heap (sax : string → list Sax.event) (xmlSource : string)
  : outcome (value * heap) :=
  (λ r, (r.1, objects r.2))
    <$> (jsonObj ← alloc ∅;
         write jsonObj (sax xmlSource);;
         mret jsonObj) empty_store.

(** [<a/>x]: text after the root element has closed. *)
Definition trailing_text_document : string := "<a/>x".

(** [<a>one<![CDATA[two]]><b/></a>] *)
Definition mixed_document : string := "<a>one<![CDATA[two]]><b/></a>".

Definition mixed_content : list xml :=
  [ Chars "one"; CDataSection ["two"]; Element "b" ∅ [] ].

(** [<a><b>] with no close tag, as events, and with its close tags. *)
Definition unclosed_events : list Sax.event :=
  [ open_tag "a" ∅; open_tag "b" ∅ ].

(** An error reported between two tags. *)
Definition events_with_error : list Sax.event :=
  [ open_tag "a" ∅; Sax.SaxError "Unquoted attribute value"; Sax.CloseTag "a" ].



(** [<a id="7">hi</a>] *)
Definition id_and_text_document : string :=
  "<a id=" +:+ dq +:+ "7" +:+ dq +:+ ">hi</a>".

(** * Properties *)

(** ** Computation rules of the monad *)



Lemma own_true {V} (o : gmap string V) k x : o !! k = Some x → own o k = true.
Proof. intros H. unfold own. apply bool_decide_eq_true. eauto. Qed.

Lemma own_false {V} (o : gmap string V) k : o !! k = None → own o k = false.
Proof.
  intros H. unfold own. apply bool_decide_eq_false. rewrite H. by intros [? ?].
Qed.

(** ** The round trip of the specification *)

(** C5: for the input [<a x="1"><b>hi</b><b>bye</b></a>], whose events are
    [roundtrip_events], [parse] calls its callback exactly once, with the
    tree [{a: {name:"a", attr:{x:"1"}, b:[{name:"b", attr:{},
    innerText:"hi"}, {name:"b", attr:{}, innerText:"bye"}]}}]. *)
Theorem parse_roundtrip (sax : string → list Sax.event) :
  sax roundtrip_document = roundtrip_events →
  callback_calls (parse sax roundtrip_document) = [roundtrip_tree].
Proof.
  intros Hevents. unfold parse. rewrite Hevents. vm_compute. reflexivity.
Qed.

Lemma parse_roundtrip_witness :
  callback_calls (parse SaxReference.sax roundtrip_document) = [roundtrip_tree].
Proof. apply parse_roundtrip. vm_compute. reflexivity. Defined.

(** ** Text and CDATA *)

(** C3, as the code has it: the event handled last decides [innerText].
    Text followed by a CDATA section leaves the CDATA content, and a CDATA
    section followed by text leaves the text. *)
Theorem text_and_cdata_last_wins (sax : string → list Sax.event) :
  sax text_then_cdata_document = text_then_cdata_events →
  sax cdata_then_text_document = cdata_then_text_events →
  callback_calls (parse sax text_then_cdata_document) = [lone_element_with_text "keep"]
  ∧ callback_calls (parse sax cdata_then_text_document) = [lone_element_with_text "drop"].
Proof.
  intros H1 H2. unfold parse. rewrite H1, H2. split; vm_compute; reflexivity.
Qed.

Lemma text_and_cdata_last_wins_witness :
  callback_calls (parse SaxReference.sax text_then_cdata_document)
    = [lone_element_with_text "keep"]
  ∧ callback_calls (parse SaxReference.sax cdata_then_text_document)
    = [lone_element_with_text "drop"].
Proof. apply text_and_cdata_last_wins; vm_compute; reflexivity. Defined.

(** C3 fails for a CDATA section followed by text: the events of
    [<a><![CDATA[keep]]>drop</a>] end with the text event, and the tree
    delivered has [innerText: "drop"], which is not ["keep"]. *)
Lemma cdata_then_text_keeps_the_text :
  SaxReference.sax cdata_then_text_document = cdata_then_text_events
  ∧ callback_calls (parse SaxReference.sax cdata_then_text_document)
    = [lone_element_with_text "drop"]
  ∧ lone_element_with_text "drop" ≠ lone_element_with_text "keep".
Proof. split; [|split]; [vm_compute; reflexivity..|]. vm_compute. discriminate. Qed.

(** ** The accessors *)




(** [getElementAttr] on an element node and a key that [Object.prototype]
    does not define: the attribute's value when the map has the key,
    otherwise the absent value.  An empty value is returned as the empty
    string, which is neither [null] nor [undefined]. *)
Lemma getElementAttr_own_key
    (h : heap) (l : loc) (o : obj) (m : gmap string string) (attr : string) :
  h !! l = Some o →
  o !! "attr" = Some (VAttrs m) →
  inherited attr = false →
  Index.getElementAttr h (VRef l) attr
    = Returns (match m !! attr with Some s => VStr s | None => VNull end)
  ∧ Revised.getElementAttr h (VRef l) attr
    = Returns (match m !! attr with Some s => VStr s | None => VUndefined end).
Proof.
  intros Hl Hattr Hinh.
  unfold Index.getElementAttr, Revised.getElementAttr; simpl.
  rewrite Hl, Hattr; simpl. rewrite Hinh, orb_false_r.
  destruct (m !! attr) as [s|] eqn:Hk.
  - rewrite (own_true _ _ _ Hk); simpl. rewrite ?Hk. done.
  - rewrite (own_false _ _ Hk); simpl. done.
Qed.

Lemma getElementAttr_own_key_witness :
  Index.getElementAttr [element_literal "a" {[ "present" := "" ]}] (VRef 0) "present"
    = Returns (VStr "")
  ∧ Revised.getElementAttr [element_literal "a" {[ "present" := "" ]}] (VRef 0) "present"
    = Returns (VStr "").
Proof.
  exact (getElementAttr_own_key
           [element_literal "a" {[ "present" := "" ]}] 0
           (element_literal "a" {[ "present" := "" ]}) {[ "present" := "" ]} "present"
           eq_refl eq_refl eq_refl).
Defined.

(** C7, the two cases the specification names: a missing attribute is
    absent, and a present attribute whose value is empty is the empty
    string. *)
Lemma getElementAttr_missing_and_empty :
  Index.getElementAttr [element_literal "a" ∅] (VRef 0) "missing" = Returns VNull
  ∧ Revised.getElementAttr [element_literal "a" ∅] (VRef 0) "missing" = Returns VUndefined
  ∧ Index.getElementAttr [element_literal "a" {[ "present" := "" ]}] (VRef 0) "present"
    = Returns (VStr "")
  ∧ Revised.getElementAttr [element_literal "a" {[ "present" := "" ]}] (VRef 0) "present"
    = Returns (VStr "").
Proof. repeat split; reflexivity. Qed.

(** C7 fails for a key that [Object.prototype] defines: [in] finds the
    inherited property, so on a node with [attr: {}] the key
    ["constructor"] is not absent; the accessor returns the inherited
    function. *)
Lemma getElementAttr_inherited_key :
  Index.getElementAttr [element_literal "a" ∅] (VRef 0) "constructor"
    = Returns (VNative "constructor")
  ∧ Revised.getElementAttr [element_literal "a" ∅] (VRef 0) "constructor"
    = Returns (VNative "constructor").
Proof. split; reflexivity. Qed.

(** C8, as the code has it: in the guarded revision both accessors return
    [undefined] for [undefined], for [null], and for every value whose
    [typeof] is not ["object"]. *)
Theorem guarded_accessors_on_non_objects (h : heap) (element : value) (attr : string) :
  element = VUndefined ∨ element = VNull ∨ typeof element ≠ "object" →
  Revised.getElementAttr h element attr = Returns VUndefined
  ∧ Revised.getElementText h element = Returns VUndefined.
Proof.
  intros [-> | [-> | Htype]]; [done..|].
  unfold Revised.getElementAttr, Revised.getElementText, Revised.not_an_object.
  destruct element; simpl in *; try done.
  destruct (String.eqb k "__proto__"); simpl; [done|done].
Qed.

Lemma guarded_accessors_on_non_objects_witness :
  Revised.getElementAttr [] (VStr "text") "x" = Returns VUndefined
  ∧ Revised.getElementText [] (VStr "text") = Returns VUndefined.
Proof.
  apply (guarded_accessors_on_non_objects [] (VStr "text") "x").
  right; right. simpl. discriminate.
Defined.

(** C8 fails for an object without an [attr] field: the guard lets the
    empty object through, [element.attr] is [undefined], and [in] applied
    to it is a [TypeError], in both accessors. *)
Lemma guarded_accessors_on_object_without_attr :
  Revised.getElementAttr [∅] (VRef 0) "x" = Throws TypeError
  ∧ Revised.getElementText [∅] (VRef 0) = Throws TypeError.
Proof. split; reflexivity. Qed.

(** [src/index.js] has no guard: [null] and [undefined] are a [TypeError]
    in both accessors. *)
Lemma unguarded_accessors_on_null (h : heap) (attr : string) :
  Index.getElementAttr h VNull attr = Throws TypeError
  ∧ Index.getElementText h VNull = Throws TypeError
  ∧ Index.getElementAttr h VUndefined attr = Throws TypeError
  ∧ Index.getElementText h VUndefined = Throws TypeError.
Proof. repeat split; reflexivity. Qed.

(** ** Reading a file *)

(** C9: when the read fails, [parseFromFile] throws the error and the
    callback is never called; the callback is called only when the read
    has succeeded, with what [parse] delivers for the text read. *)
Theorem parseFromFile_read_failure
    (sax : string → list Sax.event) (readFile : string → string + string)
    (filePath : string) :
  (∀ error, readFile filePath = inl error →
     parseFromFile sax readFile filePath
       = Throws (Error ("An error occurred: " +:+ error))
     ∧ callback_calls (parseFromFile sax readFile filePath) = [])
  ∧ (∀ delivered, delivered ∈ callback_calls (parseFromFile sax readFile filePath) →
       ∃ data, readFile filePath = inr data ∧ parse sax data = Returns delivered).
Proof.
  unfold parseFromFile. split.
  - intros error ->. done.
  - intros delivered. destruct (readFile filePath) as [error|data].
    + simpl. by intros ?%elem_of_nil.
    + intros Hin. exists data. split; [done|].
      destruct (parse sax data); simpl in Hin.
      * apply list_elem_of_singleton in Hin. by subst.
      * by apply elem_of_nil in Hin.
      * by apply elem_of_nil in Hin.
Qed.

Lemma parseFromFile_read_failure_witness :
  parseFromFile SaxReference.sax (λ _, inl "ENOENT") "missing.xml"
    = Throws (Error "An error occurred: ENOENT")
  ∧ callback_calls (parseFromFile SaxReference.sax (λ _, inl "ENOENT") "missing.xml") = [].
Proof.
  exact (proj1 (parseFromFile_read_failure SaxReference.sax (λ _, inl "ENOENT")
                  "missing.xml") "ENOENT" eq_refl).
Defined.

(** ** Documents without elements *)

Lemma write_touches_no_element (jsonObj : value) (events : list Sax.event) (s : store) :
  Forall touches_no_element events →
  ∃ s', write jsonObj events s = Returns ((), s') ∧ objects s' = objects s.
Proof.
  intros Hall. revert s. induction Hall as [|e events He _ IH]; intros s.
  - by exists s.
  - assert (∃ s1, emit jsonObj e s = Returns ((), s1) ∧ objects s1 = objects s)
      as (s1 & Hstep & Hobjects).
    { destruct e; simpl in He; try done; simpl.
      - by eexists.
      - by eexists.
      - unfold onclosetag, pop; simpl.
        unfold mbind, M_bind. destruct (elementsStack s); by eexists.
      - by eexists. }
    destruct (IH s1) as (s' & Hrest & Hobjects').
    exists s'. split; [|congruence].
    simpl. unfold mbind, M_bind at 1. by rewrite Hstep.
Qed.

(** C10, as the code has it: when the events of the input are only CDATA
    openings, CDATA chunks, close tags and errors (as for the empty
    string, which has no event at all), [parse] calls the callback exactly
    once, with an object that has no key. *)
Theorem parse_without_elements (sax : string → list Sax.event) (xmlSource : string) :
  Forall touches_no_element (sax xmlSource) →
  callback_calls (parse sax xmlSource) = [JObj ∅].
Proof.
  intros Hall. unfold parse.
  destruct (write_touches_no_element (VRef 0) (sax xmlSource)
              (Store [∅] [] "" []) Hall) as (s' & Hwrite & Hobjects).
  simpl in Hobjects.
  unfold mbind at 1, M_bind, alloc; simpl.
  unfold mbind at 1, M_bind. rewrite Hwrite. unfold onend; simpl.
  rewrite Hobjects. unfold tree; simpl. by rewrite fmap_empty.
Qed.

Lemma parse_without_elements_witness :
  callback_calls (parse SaxReference.sax "") = [JObj ∅].
Proof. apply parse_without_elements. vm_compute. constructor. Defined.

(** C10 fails for a stream that has a text event and no open tag: the
    events of ["hello"] are one text event, its handler pops [undefined]
    off the empty stack and assigning [innerText] to it is a [TypeError];
    the callback is never called. *)
Lemma parse_text_without_element :
  parse (λ _, [Sax.Text "hello"]) "hello" = Throws TypeError
  ∧ callback_calls (parse (λ _, [Sax.Text "hello"]) "hello") = []
  ∧ SaxReference.sax "hello" = [Sax.Text "hello"]
  ∧ parse SaxReference.sax "hello" = Throws TypeError.
Proof. repeat split; vm_compute; reflexivity. Qed.

(** * The heap a well-formed document leaves *)

Lemma json_of_element t a content :
  json_of (Element t a content) = JObj (foldl jabsorb (jliteral t a) content).
Proof. reflexivity. Qed.

Lemma cells_element n t a content :
  cells n (Element t a content)
  = fill (S n) (element_literal t a) content :: content_cells (S n) content.
Proof. reflexivity. Qed.

(** ** Running the primitives *)

(** A computation that returns hands its value and store to the rest. *)
Lemma run_bind {A B} (m : M A) (f : A → M B) (s s' : store) (a : A) :
  m s = Returns (a, s') → (m ≫= f) s = f a s'.
Proof. intros Hm. unfold mbind, M_bind. by rewrite Hm. Qed.

Section Primitives.
Context (H : heap) (st : list value) (cd : string) (con : list string).
Context (l : loc) (o : obj) (Hl : H !! l = Some o).

Lemma run_has k :
  has k (VRef l) (Store H st cd con) = Returns (own o k || inherited k, Store H st cd con).
Proof. unfold has, lift_read; simpl. by rewrite Hl. Qed.

Lemma run_get k :
  get (VRef l) k (Store H st cd con)
  = Returns (match o !! k with
             | Some x => x
             | None => if inherited k then VNative k else VUndefined
             end, Store H st cd con).
Proof. unfold get, lift_read; simpl. by rewrite Hl. Qed.

Lemma run_set k x :
  k ≠ "__proto__" →
  set (VRef l) k x (Store H st cd con)
  = Returns ((), Store (<[l := <[k := x]> o]> H) st cd con).
Proof.
  intros Hk. unfold set, lift_write; simpl. rewrite Hl.
  by apply String.eqb_neq in Hk as ->.
Qed.

Lemma run_del k :
  del (VRef l) k (Store H st cd con)
  = Returns ((), Store (<[l := delete k o]> H) st cd con).
Proof. unfold del, lift_write; simpl. by rewrite Hl. Qed.

Lemma run_names :
  ownPropertyNames (VRef l) (Store H st cd con)
  = Returns (elements (dom o), Store H st cd con).
Proof. unfold ownPropertyNames, lift_read; simpl. by rewrite Hl. Qed.

Lemma run_array_push k vs x :
  o !! k = Some (VArr vs) → k ≠ "__proto__" →
  array_push (VRef l) k x (Store H st cd con)
  = Returns ((), Store (<[l := <[k := VArr (vs ++ [x])]> o]> H) st cd con).
Proof.
  intros Hk Hproto. unfold array_push.
  rewrite (run_bind _ _ _ _ _ (run_get k)), Hk. by apply run_set.
Qed.

Lemma run_array_last k vs :
  o !! k = Some (VArr vs) →
  array_last (VRef l) k (Store H st cd con)
  = Returns (List.last vs VUndefined, Store H st cd con).
Proof.
  intros Hk. unfold array_last.
  by rewrite (run_bind _ _ _ _ _ (run_get k)), Hk.
Qed.

End Primitives.

Lemma names_of_nonempty (ro : obj) :
  ro ≠ ∅ → negb (Nat.eqb (length (elements (dom ro))) 0) = true.
Proof.
  intros Hne. destruct (elements (dom ro)) as [|k ks] eqn:Hk; [|done].
  apply elements_empty_inv in Hk. apply leibniz_equiv in Hk.
  by apply dom_empty_inv_L in Hk.
Qed.

Lemma present_value (o : obj) (k : string) :
  own o k || inherited k = true →
  match o !! k with
  | Some x => x
  | None => if inherited k then VNative k else VUndefined
  end = default (VNative k) (o !! k).
Proof.
  intros Hp. destruct (o !! k) as [x|] eqn:Hk; [done|].
  rewrite (own_false _ _ Hk) in Hp. simpl in Hp. by rewrite Hp.
Qed.

(** [onopentag] below the root: the parent on top of the stack takes the
    new node as [attach] says, the node is allocated at the end of the
    heap, and parent and node are pushed. *)
Lemma onopentag_child (r q : loc) (ro qo : obj) (H : heap) (rest : list value)
    (cd : string) (con : list string) (t : string) (a : gmap string string) :
  H !! r = Some ro → ro ≠ ∅ → H !! q = Some qo → t ≠ "__proto__" →
  onopentag (VRef r) (Sax.Tag t a) (Store H (VRef q :: rest) cd con)
  = Returns ((), Store (<[q := attach qo t (VRef (length H))]> H ++ [element_literal t a])
                       (VRef (length H) :: VRef q :: rest) cd con).
Proof.
  intros Hr Hne Hq Ht.
  assert (q < length H) as Hlt by (by eapply lookup_lt_Some).
  unfold onopentag; simpl.
  rewrite (run_bind _ _ _ _ _ (run_names H _ _ _ r ro Hr)).
  rewrite (names_of_nonempty _ Hne).
  rewrite (run_bind _ _ (Store H (VRef q :: rest) cd con) (Store H rest cd con) (VRef q) eq_refl).
  rewrite (run_bind _ _ _ _ _ (run_has H _ _ _ q qo Hq t)).
  unfold attach.
  destruct (own qo t || inherited t) eqn:Hpresent.
  - rewrite (run_bind _ _ _ _ _ (run_get H _ _ _ q qo Hq t)).
    rewrite (present_value _ _ Hpresent).
    destruct (isArray (default (VNative t) (qo !! t))) eqn:Harr.
    + destruct (default (VNative t) (qo !! t)) as [| | | | | | |vs|] eqn:He; try done.
      assert (qo !! t = Some (VArr vs)) as Hk.
      { destruct (qo !! t); simpl in He; by simplify_eq. }
      rewrite (run_bind _ _ _ _ _ eq_refl).
      assert ((H ++ [element_literal t a]) !! q = Some qo) as Hq'
        by (by rewrite lookup_app_l).
      rewrite (run_bind _ _ _ _ _
                 (run_array_push _ _ _ _ q qo Hq' t vs (VRef (length H)) Hk Ht)).
      rewrite (run_bind _ _ _ _ _ eq_refl).
      assert ((<[q := <[t := VArr (vs ++ [VRef (length H)])]> qo]> (H ++ [element_literal t a])) !! q
              = Some (<[t := VArr (vs ++ [VRef (length H)])]> qo)) as Hq''.
      { apply list_lookup_insert_eq. rewrite length_app. lia. }
      rewrite (run_bind _ _ _ _ _
                 (run_array_last _ _ _ _ q _ Hq'' t _ (lookup_insert_eq _ _ _))).
      rewrite last_last. unfold push; simpl.
      by rewrite insert_app_l.
    + set (e := default (VNative t) (qo !! t)) in *.
      rewrite (run_bind _ _ _ _ _ (run_get H _ _ _ q qo Hq t)).
      rewrite (present_value _ _ Hpresent). fold e.
      rewrite (run_bind _ _ _ _ _ (run_del H _ _ _ q qo Hq t)).
      set (H1 := <[q := delete t qo]> H).
      assert (H1 !! q = Some (delete t qo)) as Hq1 by (by apply list_lookup_insert_eq).
      rewrite (run_bind _ _ _ _ _ (run_set H1 _ _ _ q _ Hq1 t (VArr []) Ht)).
      set (H2 := <[q := <[t := VArr []]> (delete t qo)]> H1).
      assert (H2 !! q = Some (<[t := VArr []]> (delete t qo))) as Hq2.
      { apply list_lookup_insert_eq. unfold H1. by rewrite length_insert. }
      rewrite (run_bind _ _ _ _ _
                 (run_array_push H2 _ _ _ q _ Hq2 t [] e (lookup_insert_eq _ _ _) Ht)).
      set (o3 := <[t := VArr ([] ++ [e])]> (<[t := VArr []]> (delete t qo))).
      set (H3 := <[q := o3]> H2).
      rewrite (run_bind _ _ _ _ _ eq_refl).
      assert (length H3 = length H) as Hlen.
      { unfold H3, H2, H1. by rewrite !length_insert. }
      assert ((H3 ++ [element_literal t a]) !! q = Some o3) as Hq3.
      { rewrite lookup_app_l by lia. apply list_lookup_insert_eq.
        unfold H2, H1. by rewrite !length_insert. }
      rewrite (run_bind _ _ _ _ _
                 (run_array_push _ _ _ _ q _ Hq3 t _ (VRef (length H3))
                    (lookup_insert_eq _ _ _) Ht)).
      rewrite (run_bind _ _ _ _ _ eq_refl).
      set (o4 := <[t := VArr (([] ++ [e]) ++ [VRef (length H3)])]> o3).
      assert ((<[q := o4]> (H3 ++ [element_literal t a])) !! q = Some o4) as Hq4.
      { apply list_lookup_insert_eq. rewrite length_app. lia. }
      rewrite (run_bind _ _ _ _ _
                 (run_array_last _ _ _ _ q _ Hq4 t _ (lookup_insert_eq _ _ _))).
      rewrite last_last. unfold push; simpl.
      rewrite insert_app_l by lia.
      assert (o4 = <[t := VArr [e; VRef (length H)]]> qo) as ->.
      { unfold o4, o3. rewrite Hlen. simpl.
        by rewrite !insert_insert_eq, insert_delete_eq. }
      assert (<[q := <[t := VArr [e; VRef (length H)]]> qo]> H3
              = <[q := <[t := VArr [e; VRef (length H)]]> qo]> H) as ->.
      { unfold H3, H2, H1. by rewrite !list_insert_insert_eq. }
      rewrite Hlen.
      destruct e; try done.
  - rewrite (run_bind _ _ _ _ _ eq_refl).
    assert ((H ++ [element_literal t a]) !! q = Some qo) as Hq'
      by (by rewrite lookup_app_l).
    rewrite (run_bind _ _ _ _ _ (run_set _ _ _ _ q qo Hq' t (VRef (length H)) Ht)).
    rewrite (run_bind _ _ _ _ _ eq_refl).
    assert ((<[q := <[t := VRef (length H)]> qo]> (H ++ [element_literal t a])) !! q
            = Some (<[t := VRef (length H)]> qo)) as Hq''.
    { apply list_lookup_insert_eq. rewrite length_app. lia. }
    rewrite (run_bind _ _ _ _ _ (run_get _ _ _ _ q _ Hq'' t)).
    rewrite lookup_insert_eq. unfold push; simpl.
    by rewrite insert_app_l.
Qed.

(** [onopentag] while [jsonObj] has no key: the node goes under its tag
    in [jsonObj] and is pushed. *)
Lemma onopentag_root (r : loc) (H : heap) (st : list value)
    (cd : string) (con : list string) (t : string) (a : gmap string string) :
  H !! r = Some ∅ → t ≠ "__proto__" →
  onopentag (VRef r) (Sax.Tag t a) (Store H st cd con)
  = Returns ((), Store (<[r := {[ t := VRef (length H) ]}]> H ++ [element_literal t a])
                       (VRef (length H) :: st) cd con).
Proof.
  intros Hr Ht.
  assert (r < length H) as Hlt by (by eapply lookup_lt_Some).
  unfold onopentag; simpl.
  rewrite (run_bind _ _ _ _ _ (run_names H _ _ _ r ∅ Hr)).
  rewrite dom_empty_L, elements_empty; simpl.
  rewrite (run_bind _ _ _ _ _ eq_refl).
  assert ((H ++ [element_literal t a]) !! r = Some ∅) as Hr'
    by (by rewrite lookup_app_l).
  rewrite (run_bind _ _ _ _ _ (run_set _ _ _ _ r ∅ Hr' t (VRef (length H)) Ht)).
  assert ((<[r := <[t := VRef (length H)]> ∅]> (H ++ [element_literal t a])) !! r
          = Some (<[t := VRef (length H)]> ∅)) as Hr''.
  { apply list_lookup_insert_eq. rewrite length_app. lia. }
  rewrite (run_bind _ _ _ _ _ (run_get _ _ _ _ r _ Hr'' t)).
  rewrite lookup_insert_eq. unfold push; simpl.
  by rewrite insert_app_l.
Qed.

(** [ontext] overwrites [innerText] of the node on top of the stack. *)
Lemma ontext_run (q : loc) (qo : obj) (H : heap) (rest : list value)
    (cd : string) (con : list string) (text : string) :
  H !! q = Some qo →
  ontext text (Store H (VRef q :: rest) cd con)
  = Returns ((), Store (<[q := <["innerText" := VStr text]> qo]> H) (VRef q :: rest) cd con).
Proof.
  intros Hq. unfold ontext.
  rewrite (run_bind _ _ (Store H (VRef q :: rest) cd con) (Store H rest cd con) (VRef q) eq_refl).
  by rewrite (run_bind _ _ _ _ _ (run_set H _ _ _ q qo Hq "innerText" (VStr text) ltac:(done))).
Qed.

(** [onclosecdata] writes the accumulated text to [innerText] and empties
    the accumulator. *)
Lemma onclosecdata_run (q : loc) (qo : obj) (H : heap) (rest : list value)
    (cd : string) (con : list string) :
  H !! q = Some qo →
  onclosecdata (Store H (VRef q :: rest) cd con)
  = Returns ((), Store (<[q := <["innerText" := VStr cd]> qo]> H) (VRef q :: rest) "" con).
Proof.
  intros Hq. unfold onclosecdata.
  rewrite (run_bind _ _ (Store H (VRef q :: rest) cd con) (Store H rest cd con) (VRef q) eq_refl).
  rewrite (run_bind _ _ _ _ _ eq_refl).
  by rewrite (run_bind _ _ _ _ _ (run_set H _ _ _ q qo Hq "innerText" (VStr cd) ltac:(done))).
Qed.

Lemma write_app (jsonObj : value) (es1 es2 : list Sax.event) (s : store) :
  write jsonObj (es1 ++ es2) s = (write jsonObj es1 ;; write jsonObj es2) s.
Proof.
  revert s. induction es1 as [|e es1 IH]; intros s; simpl.
  - done.
  - unfold mbind, M_bind. destruct (emit jsonObj e s) as [[[] s1]| |]; [|done..].
    apply IH.
Qed.

Lemma write_cons (jsonObj : value) (e : Sax.event) (es : list Sax.event) (s s' : store) :
  emit jsonObj e s = Returns ((), s') →
  write jsonObj (e :: es) s = write jsonObj es s'.
Proof. intros He. simpl. by rewrite (run_bind _ _ _ _ _ He). Qed.

Lemma append_assoc (a b c : string) : (a +:+ b) +:+ c = a +:+ (b +:+ c).
Proof. induction a as [|x a IH]; [done|]. change (String x ((a +:+ b) +:+ c) = String x (a +:+ b +:+ c)). by f_equal. Qed.

Lemma append_empty_r (a : string) : a +:+ "" = a.
Proof. induction a as [|x a IH]; [done|]. change (String x (a +:+ "") = String x a). by f_equal. Qed.

(** The chunks of a CDATA section are appended to [cdata] in order. *)
Lemma write_chunks (jsonObj : value) (chunks : list string) (H : heap)
    (st : list value) (cd : string) (con : list string) :
  write jsonObj (Sax.CData <$> chunks) (Store H st cd con)
  = Returns ((), Store H st (cd +:+ joined chunks) con).
Proof.
  revert cd. induction chunks as [|c chunks IH]; intros cd; simpl.
  - by rewrite append_empty_r.
  - rewrite (run_bind _ _ (Store H st cd con) (Store H st (cd +:+ c) con) () eq_refl).
    rewrite IH. by rewrite append_assoc.
Qed.

(** Induction on documents, with the hypothesis for every item of the content. *)
Lemma xml_ind' (P : xml → Prop) :
  (∀ t a content, Forall P content → P (Element t a content)) →
  (∀ text, P (Chars text)) →
  (∀ chunks, P (CDataSection chunks)) →
  ∀ x, P x.
Proof.
  intros Helement Hchars Hcdata.
  fix IH 1. intros [t a content|text|chunks]; [|done..].
  apply Helement. induction content as [|c content IHc]; constructor; [apply IH|done].
Qed.

Lemma modelled_element t a content :
  modelled (Element t a content) = true →
  t ≠ "__proto__" ∧ Forall (λ c, modelled c = true) content.
Proof.
  unfold modelled; simpl. intros [Ht Hc]%andb_prop. split.
  - by apply negb_true_iff, String.eqb_neq in Ht.
  - apply Forall_forall. intros c Hin. rewrite forallb_forall in Hc.
    apply Hc. by apply list_elem_of_In.
Qed.

Lemma length_cells (x : xml) (n : nat) : length (cells n x) = size x.
Proof.
  revert n. induction x as [t a content IH| |] using xml_ind'; intros n; [|done..].
  rewrite cells_element. simpl. f_equal.
  generalize (S n). induction IH as [|c content Hc _ IHc]; intros m; simpl; [done|].
  by rewrite length_app, Hc, IHc.
Qed.

(** The items of a content run one after the other. *)
Lemma runs_content (r : loc) (ro : obj) (content : list xml) :
  Forall (runs r ro) content →
  ∀ (H : heap) (q : loc) (qo : obj) (rest : list value) (con : list string),
    H !! r = Some ro → r ≠ q → H !! q = Some qo →
    write (VRef r) (flat_map events_of content) (Store H (VRef q :: rest) "" con)
    = Returns ((), Store (<[q := fill (length H) qo content]> H
                          ++ content_cells (length H) content)
                         (VRef q :: rest) "" con).
Proof.
  induction 1 as [|c content Hc _ IH]; intros H q qo rest con Hr Hrq Hq.
  - simpl. by rewrite app_nil_r, list_insert_id.
  - assert (q < length H) as Hlt by (by eapply lookup_lt_Some).
    assert (r < length H) as Hrlt by (by eapply lookup_lt_Some).
    simpl. rewrite write_app.
    rewrite (run_bind _ _ _ _ _ (Hc H q qo rest con Hr Hrq Hq)).
    set (H1 := <[q := absorb (length H) qo c]> H ++ cells (length H) c).
    assert (length H1 = length H + size c) as Hlen.
    { unfold H1. by rewrite length_app, length_insert, length_cells. }
    rewrite (IH H1 q (absorb (length H) qo c) rest con).
    + rewrite Hlen. unfold H1. rewrite insert_app_l by (by rewrite length_insert).
      by rewrite list_insert_insert_eq, <- app_assoc.
    + unfold H1. rewrite lookup_app_l by (by rewrite length_insert).
      by rewrite list_lookup_insert_ne.
    + done.
    + unfold H1. rewrite lookup_app_l by (by rewrite length_insert).
      by apply list_lookup_insert_eq.
Qed.

(** The events of a document leave the cells of the document at the end
    of the heap, the open element changed as [absorb] says, and the stack
    and the accumulator as they were. *)
Lemma runs_modelled (r : loc) (ro : obj) (x : xml) :
  ro ≠ ∅ → modelled x = true → runs r ro x.
Proof.
  intros Hne. induction x as [t a content IH|text|chunks] using xml_ind';
    intros Hm H q qo rest con Hr Hrq Hq.
  - apply modelled_element in Hm as [Ht Hcontent].
    assert (q < length H) as Hlt by (by eapply lookup_lt_Some).
    assert (r < length H) as Hrlt by (by eapply lookup_lt_Some).
    assert (Forall (runs r ro) content) as Hruns.
    { apply Forall_forall. intros c Hin.
      rewrite Forall_forall in IH, Hcontent. by apply IH, Hcontent. }
    simpl events_of.
    rewrite (write_cons (VRef r) (open_tag t a) _ _ _
               (onopentag_child r q ro qo H rest "" con t a Hr Hne Hq Ht)).
    rewrite write_app.
    set (H1 := <[q := attach qo t (VRef (length H))]> H ++ [element_literal t a]).
    assert (length H1 = S (length H)) as Hlen.
    { unfold H1. rewrite length_app, length_insert. simpl. lia. }
    assert (H1 !! r = Some ro) as Hr1.
    { unfold H1. rewrite lookup_app_l by (by rewrite length_insert).
      by rewrite list_lookup_insert_ne. }
    assert (H1 !! length H = Some (element_literal t a)) as Hq1.
    { unfold H1. rewrite lookup_app_r by (by rewrite length_insert).
      by rewrite length_insert, Nat.sub_diag. }
    assert (r ≠ length H) as Hr' by lia.
    rewrite (run_bind _ _ _ _ _
               (runs_content r ro content Hruns H1 (length H) (element_literal t a)
                  (VRef q :: rest) con Hr1 Hr' Hq1)).
    unfold write, emit, onclosetag, pop, mbind, M_bind, mret, M_ret; simpl.
    rewrite Hlen. unfold H1.
    rewrite insert_app_r_alt by (by rewrite length_insert).
    rewrite length_insert, Nat.sub_diag. simpl.
    by rewrite <- app_assoc.
  - simpl. rewrite (run_bind _ _ _ _ _ (ontext_run q qo H rest "" con text Hq)).
    by rewrite app_nil_r.
  - simpl events_of.
    rewrite (write_cons (VRef r) Sax.OpenCData _ (Store H (VRef q :: rest) "" con)
               (Store H (VRef q :: rest) "" con) eq_refl).
    rewrite write_app, (run_bind _ _ _ _ _ (write_chunks _ chunks H _ "" con)).
    simpl. rewrite (run_bind _ _ _ _ _ (onclosecdata_run q qo H rest _ con Hq)).
    by rewrite app_nil_r.
Qed.

(** ** From the heap to the tree *)

Lemma placed_lookup H n o cs : placed H n (o :: cs) → H !! n = Some o.
Proof.
  intros (P & S & -> & <-). rewrite lookup_app_r by lia.
  by rewrite Nat.sub_diag.
Qed.

Lemma placed_tail H n o cs : placed H n (o :: cs) → placed H (S n) cs.
Proof.
  intros (P & S & -> & <-). exists (P ++ [o]), S. split.
  - by rewrite <- app_assoc.
  - rewrite length_app. simpl. lia.
Qed.

Lemma placed_app_l H n cs1 cs2 : placed H n (cs1 ++ cs2) → placed H n cs1.
Proof.
  intros (P & S & -> & <-). exists P, (cs2 ++ S). by rewrite <- app_assoc.
Qed.

Lemma placed_app_r H n cs1 cs2 :
  placed H n (cs1 ++ cs2) → placed H (n + length cs1) cs2.
Proof.
  intros (P & S & -> & <-). exists (P ++ cs1), S. split.
  - by rewrite <- !app_assoc.
  - by rewrite length_app.
Qed.

Lemma own_fmap {A B} (f : A → B) (o : gmap string A) (k : string) :
  own (f <$> o) k = own o k.
Proof.
  unfold own. apply bool_decide_ext. rewrite lookup_fmap. apply fmap_is_Some.
Qed.

Lemma snapshot_not_array (f : nat) (H : heap) (v : value) :
  isArray v = false → ∀ js, snapshot f H v ≠ JArr js.
Proof.
  intros Hv js. destruct f, v as [| | | | | | | |l]; try done.
  simpl. by destruct (H !! l).
Qed.

Lemma snapshot_array (f : nat) (H : heap) (vs : list value) :
  snapshot (S f) H (VArr vs) = JArr (snapshot f H <$> vs).
Proof. reflexivity. Qed.

Lemma snapshot_object (f : nat) (H : heap) (l : loc) (o : obj) :
  H !! l = Some o → snapshot (S f) H (VRef l) = JObj (snapshot f H <$> o).
Proof. intros Hl. simpl. by rewrite Hl. Qed.

Lemma attach_absent (o : obj) (k : string) (v : value) :
  own o k || inherited k = false → attach o k v = <[k := v]> o.
Proof. intros Hp. unfold attach. by rewrite Hp. Qed.

Lemma attach_array (o : obj) (k : string) (v : value) (vs : list value) :
  o !! k = Some (VArr vs) → attach o k v = <[k := VArr (vs ++ [v])]> o.
Proof. intros Hk. unfold attach. by rewrite (own_true _ _ _ Hk), Hk. Qed.

Lemma attach_other (o : obj) (k : string) (v : value) :
  own o k || inherited k = true →
  isArray (default (VNative k) (o !! k)) = false →
  attach o k v = <[k := VArr [default (VNative k) (o !! k); v]]> o.
Proof.
  intros Hp He. unfold attach. rewrite Hp.
  by destruct (default (VNative k) (o !! k)).
Qed.

Lemma jattach_absent (o : gmap string json) (k : string) (j : json) :
  own o k || inherited k = false → jattach o k j = <[k := j]> o.
Proof. intros Hp. unfold jattach. by rewrite Hp. Qed.

Lemma jattach_array (o : gmap string json) (k : string) (j : json) (js : list json) :
  o !! k = Some (JArr js) → jattach o k j = <[k := JArr (js ++ [j])]> o.
Proof. intros Hk. unfold jattach. by rewrite (own_true _ _ _ Hk), Hk. Qed.

Lemma jattach_other (o : gmap string json) (k : string) (j : json) :
  own o k || inherited k = true →
  (∀ js, default (JNative k) (o !! k) ≠ JArr js) →
  jattach o k j = <[k := JArr [default (JNative k) (o !! k); j]]> o.
Proof.
  intros Hp He. unfold jattach. rewrite Hp.
  destruct (default (JNative k) (o !! k)) as [| | | | | | |js| |]; try done.
  by destruct (He js).
Qed.

(** Reading the object after [attach] is [jattach] on what was read
    before. *)
Lemma snapshot_attach (f : nat) (H : heap) (o : obj) (k : string) (m : loc) (j : json) :
  lone_stable f H o →
  snapshot f H (VRef m) = j →
  snapshot (S f) H (VRef m) = j →
  snapshot (S f) H <$> attach o k (VRef m) = jattach (snapshot (S f) H <$> o) k j.
Proof.
  intros Hstable Hj Hj'.
  assert (default (JNative k) ((snapshot (S f) H <$> o) !! k)
          = snapshot (S f) H (default (VNative k) (o !! k))) as Hdefault.
  { rewrite lookup_fmap. by destruct (o !! k). }
  destruct (own o k || inherited k) eqn:Hpresent.
  - destruct (isArray (default (VNative k) (o !! k))) eqn:Harr.
    + destruct (o !! k) as [[| | | | | | |vs|]|] eqn:Hk; try done.
      rewrite (attach_array _ _ _ _ Hk).
      rewrite (jattach_array _ _ _ (snapshot f H <$> vs))
        by (by rewrite lookup_fmap, Hk).
      rewrite fmap_insert, snapshot_array, fmap_app. by rewrite <- Hj.
    + rewrite (attach_other _ _ _ Hpresent Harr).
      rewrite jattach_other.
      * rewrite Hdefault, fmap_insert, snapshot_array.
        change (snapshot f H <$> [default (VNative k) (o !! k); VRef m])
          with [snapshot f H (default (VNative k) (o !! k)); snapshot f H (VRef m)].
        rewrite Hj. do 3 f_equal.
        destruct (o !! k) as [v|] eqn:Hk; simpl in *; [by eapply Hstable|by destruct f].
      * by rewrite own_fmap.
      * rewrite Hdefault. by apply snapshot_not_array.
  - rewrite (attach_absent _ _ _ Hpresent).
    rewrite jattach_absent by (by rewrite own_fmap).
    by rewrite fmap_insert, Hj'.
Qed.

Lemma lone_stable_insert (f : nat) (H : heap) (o : obj) (k : string) (v : value) :
  lone_stable f H o →
  (isArray v = false → snapshot f H v = snapshot (S f) H v) →
  lone_stable f H (<[k := v]> o).
Proof.
  intros Ho Hv k' v' Hk' Harr. destruct (decide (k = k')) as [<-|Hne].
  - rewrite lookup_insert_eq in Hk'. simplify_eq. by apply Hv.
  - rewrite lookup_insert_ne in Hk' by done. by eapply Ho.
Qed.

Lemma lone_stable_attach (f : nat) (H : heap) (o : obj) (k : string) (m : loc) :
  lone_stable f H o →
  snapshot f H (VRef m) = snapshot (S f) H (VRef m) →
  lone_stable f H (attach o k (VRef m)).
Proof.
  intros Ho Hm. unfold attach. destruct (own o k || inherited k).
  - destruct (default (VNative k) (o !! k)); by apply lone_stable_insert.
  - by apply lone_stable_insert.
Qed.

Lemma lone_stable_literal (f : nat) (H : heap) (t : string) (a : gmap string string) :
  lone_stable f H (element_literal t a).
Proof.
  unfold element_literal. apply lone_stable_insert; [|by destruct f].
  apply lone_stable_insert; [|by destruct f]. by intros k v ?.
Qed.

(** Reading the object after its content is [jabsorb] folded over the content. *)
Lemma snapshot_fill (content : list xml) :
  Forall reads content →
  ∀ (H : heap) (m f : nat) (o : obj),
    placed H m (content_cells m content) →
    2 * max_list_with height content ≤ f →
    lone_stable f H o →
    snapshot (S f) H <$> fill m o content
    = foldl jabsorb (snapshot (S f) H <$> o) content.
Proof.
  induction 1 as [|c content Hc _ IH]; intros H m f o Hplaced Hf Ho; [done|].
  simpl in Hplaced. cbn [fill foldl].
  change (max_list_with height (c :: content))
    with (height c `max` max_list_with height content) in Hf.
  pose proof (placed_app_l _ _ _ _ Hplaced) as Hhere.
  pose proof (placed_app_r _ _ _ _ Hplaced) as Hthere.
  rewrite length_cells in Hthere.
  assert (lone_stable f H (absorb m o c)
          ∧ snapshot (S f) H <$> absorb m o c = jabsorb (snapshot (S f) H <$> o) c)
    as [Ho' Heq].
  { destruct c as [k a' content'|text|chunks]; simpl absorb; simpl jabsorb.
    - change (∀ (H : heap) (n f : nat),
                placed H n (cells n (Element k a' content')) →
                2 * height (Element k a' content') ≤ f →
                snapshot f H (VRef n) = json_of (Element k a' content')) in Hc.
      assert (snapshot f H (VRef m) = json_of (Element k a' content')) as Hj
        by (apply Hc; [done|lia]).
      assert (snapshot (S f) H (VRef m) = json_of (Element k a' content')) as Hj'
        by (apply Hc; [done|lia]).
      split.
      + apply lone_stable_attach; [done|congruence].
      + by apply snapshot_attach.
    - split; [apply lone_stable_insert; [done|by destruct f]|].
      by rewrite fmap_insert.
    - split; [apply lone_stable_insert; [done|by destruct f]|].
      by rewrite fmap_insert. }
  rewrite <- Heq. apply IH; [done|lia|done].
Qed.

Lemma reads_all (x : xml) : reads x.
Proof.
  induction x as [t a content IH| |] using xml_ind'; [|done..].
  intros H n f Hplaced Hf. rewrite cells_element in Hplaced.
  simpl in Hf. destruct f as [|[|f]]; [lia..|].
  rewrite (snapshot_object _ _ _ _ (placed_lookup _ _ _ _ Hplaced)).
  rewrite json_of_element. f_equal.
  rewrite (snapshot_fill content IH H (S n) f).
  - f_equal; unfold element_literal, jliteral;
      by rewrite !fmap_insert, fmap_empty.
  - by eapply placed_tail.
  - lia.
  - apply lone_stable_literal.
Qed.

(** The fuel of [tree] is enough: a chain of nested elements is no longer than the heap. *)
Lemma height_le_size (x : xml) : height x ≤ size x.
Proof.
  induction x as [t a content IH| |] using xml_ind'; [|done..].
  simpl. apply le_n_S.
  induction IH as [|c content Hc _ IHc]; simpl; [done|lia].
Qed.

(** ** The tree of a well-formed document *)

(** The tree delivered for a well-formed document: one key, the root tag,
    that holds [json_of] of the root element. *)
Lemma parse_document (sax : string → list Sax.event) (xmlSource : string)
    (t : string) (a : gmap string string) (content : list xml) :
  sax xmlSource = events_of (Element t a content) →
  modelled (Element t a content) = true →
  parse sax xmlSource = Returns (JObj {[ t := json_of (Element t a content) ]}).
Proof.
  intros Hevents Hmodelled.
  pose proof (modelled_element _ _ _ Hmodelled) as [Ht Hcontent].
  unfold parse. rewrite Hevents.
  rewrite (run_bind _ _ empty_store (Store [∅] [] "" []) (VRef 0) eq_refl).
  simpl events_of.
  assert (([∅] : heap) !! 0 = Some ∅) as Hroot by done.
  rewrite (run_bind _ (λ _, onend (VRef 0)) (Store [∅] [] "" [])
             (Store ([ {[ t := VRef 1 ]} ] ++ cells 1 (Element t a content)) [] "" []) ()).
  - unfold onend, tree. simpl fst. cbn [fmap outcome_fmap fst].
    set (Hf := [ {[ t := VRef 1 ]} ] ++ cells 1 (Element t a content)).
    assert (length Hf = S (size (Element t a content))) as Hlen.
    { unfold Hf. by rewrite length_app, length_cells. }
    cbn [objects].
    replace (2 * length Hf + 1) with (S (2 * length Hf)) by lia.
    rewrite (snapshot_object _ _ 0 {[ t := VRef 1 ]}) by done.
    rewrite map_fmap_singleton. do 3 f_equal.
    apply (reads_all (Element t a content)).
    + exists [ {[ t := VRef 1 ]} ], []. by rewrite app_nil_r.
    + pose proof (height_le_size (Element t a content)). lia.
  - rewrite (write_cons (VRef 0) (open_tag t a) _ _ _
               (onopentag_root 0 [∅] [] "" [] t a Hroot Ht)).
    rewrite write_app.
    set (H1 := <[0 := {[ t := VRef 1 ]}]> [∅] ++ [element_literal t a]).
    assert (Forall (runs 0 {[ t := VRef 1 ]}) content) as Hruns.
    { eapply Forall_impl; [exact Hcontent|]. intros c Hc.
      apply runs_modelled; [|done]. apply insert_non_empty. }
    rewrite (run_bind _ _ _ _ _
               (runs_content 0 {[ t := VRef 1 ]} content Hruns H1 1 (element_literal t a)
                  [] [] eq_refl ltac:(done) eq_refl)).
    unfold write, emit, onclosetag, pop, mbind, M_bind, mret, M_ret; simpl.
    done.
Qed.

(** ** Keys of a node *)

Lemma jattach_lookup_ne (o : gmap string json) (k k' : string) (j : json) :
  k ≠ k' → jattach o k' j !! k = o !! k.
Proof.
  intros Hne. unfold jattach.
  destruct (own o k' || inherited k'); [destruct (default _ _)|];
    by rewrite lookup_insert_ne.
Qed.

Lemma jabsorb_lookup_ne (o : gmap string json) (c : xml) (k : string) :
  tag_of c ≠ Some k → k ≠ "innerText" → jabsorb o c !! k = o !! k.
Proof.
  intros Htag Hk. destruct c as [k' a content|text|chunks]; simpl.
  - apply jattach_lookup_ne. naive_solver.
  - by rewrite lookup_insert_ne.
  - by rewrite lookup_insert_ne.
Qed.

(** A key is changed only by a child tagged with it, or, for [innerText], by text. *)
Lemma foldl_jabsorb_keeps (content : list xml) (o : gmap string json) (k : string) :
  Forall (λ c, tag_of c ≠ Some k) content → k ≠ "innerText" →
  foldl jabsorb o content !! k = o !! k.
Proof.
  intros Hall Hk. revert o. induction Hall as [|c content Hc _ IH]; intros o; [done|].
  simpl. by rewrite IH, jabsorb_lookup_ne.
Qed.

Lemma json_of_not_array (x : xml) (js : list json) : json_of x ≠ JArr js.
Proof. by destruct x. Qed.

Lemma slot_snoc (js : list json) (o : gmap string json) (k : string) (j : json) :
  inherited k = false →
  (∀ j' js', j' ∈ js → j' ≠ JArr js') →
  o !! k = slot js →
  jattach o k j !! k = slot (js ++ [j]).
Proof.
  intros Hinh Hjs Hk. destruct js as [|j1 [|j2 js]]; simpl in *.
  - rewrite jattach_absent by (by rewrite (own_false _ _ Hk), Hinh).
    by rewrite lookup_insert_eq.
  - rewrite jattach_other.
    + by rewrite Hk, lookup_insert_eq.
    + by rewrite (own_true _ _ _ Hk).
    + rewrite Hk. simpl. intros js'. apply Hjs. by left.
  - rewrite (jattach_array _ _ _ _ Hk). by rewrite lookup_insert_eq.
Qed.

(** Children tagged [k] are gathered under [k] in document order. *)
Lemma foldl_jabsorb_slot (content : list xml) (o : gmap string json) (k : string)
    (js : list json) :
  inherited k = false → k ≠ "innerText" →
  (∀ j' js', j' ∈ js → j' ≠ JArr js') →
  o !! k = slot js →
  foldl jabsorb o content !! k = slot (js ++ (json_of <$> children_tagged k content)).
Proof.
  intros Hinh Hk. revert o js.
  induction content as [|c content IH]; intros o js Hjs Ho.
  - simpl. by rewrite app_nil_r.
  - simpl. unfold children_tagged. rewrite filter_cons.
    destruct (decide (tag_of c = Some k)) as [Hc|Hc].
    + rewrite fmap_cons, (cons_middle _ js), app_assoc. apply IH.
      * intros j' js' [Hin| ->%list_elem_of_singleton]%elem_of_app;
          [by apply Hjs|apply json_of_not_array].
      * destruct c as [k' a content'| |]; simplify_eq/=. by apply slot_snoc.
    + apply IH; [done|]. by rewrite jabsorb_lookup_ne.
Qed.

Lemma reserved_false (k : string) :
  reserved k = false →
  k ≠ "name" ∧ k ≠ "attr" ∧ k ≠ "innerText" ∧ inherited k = false.
Proof.
  unfold reserved. intros [Hown Hinh]%orb_false_elim.
  apply bool_decide_eq_false in Hown. unfold own_fields in Hown.
  repeat split; [..|done]; intros ->; apply Hown; repeat constructor.
Qed.

(** The node of an element maps an unreserved tag to its children of that
    tag: to nothing when there is none, to the child when there is one,
    to their sequence in document order otherwise. *)
Lemma node_children (t : string) (a : gmap string string) (content : list xml)
    (k : string) :
  reserved k = false →
  ∃ o, json_of (Element t a content) = JObj o
       ∧ o !! k = slot (json_of <$> children_tagged k content).
Proof.
  intros (Hname & Hattr & Htext & Hinh)%reserved_false.
  eexists. split; [apply json_of_element|].
  apply (foldl_jabsorb_slot content _ k []); [done|done|by intros ?? ?%elem_of_nil|].
  unfold jliteral. by rewrite !lookup_insert_ne.
Qed.

Lemma forallb_Forall {A} (p : A → bool) (l : list A) :
  forallb p l = true ↔ Forall (λ x, p x = true) l.
Proof.
  rewrite forallb_forall, Forall_forall.
  split; intros Hall x Hin; apply Hall; by apply list_elem_of_In.
Qed.

Lemma tidy_element (t : string) (a : gmap string string) (content : list xml) :
  tidy (Element t a content) = true →
  Forall (λ c, (∀ k, tag_of c = Some k → reserved k = false) ∧ tidy c = true) content.
Proof.
  simpl. rewrite forallb_Forall. intros Hall.
  eapply Forall_impl; [exact Hall|]. simpl.
  intros c [Htag Hc]%andb_prop. split; [|done].
  intros k Hk. rewrite Hk in Htag. by apply negb_true_iff.
Qed.

Lemma distinct_siblings_element (t : string) (a : gmap string string) (content : list xml) :
  distinct_siblings (Element t a content) = true →
  NoDup (child_tags content) ∧ Forall (λ c, distinct_siblings c = true) content.
Proof.
  simpl. intros [Hnodup Hall]%andb_prop. split.
  - by apply bool_decide_eq_true in Hnodup.
  - by apply forallb_Forall.
Qed.

Lemma tidy_modelled (x : xml) :
  tag_of x ≠ Some "__proto__" → tidy x = true → modelled x = true.
Proof.
  induction x as [t a content IH| |] using xml_ind'; [|done..].
  intros Ht Htidy. apply tidy_element in Htidy.
  unfold modelled. simpl. apply andb_true_intro. split.
  - apply negb_true_iff, String.eqb_neq. naive_solver.
  - apply forallb_Forall. rewrite Forall_forall in IH, Htidy |- *.
    intros c Hin. destruct (Htidy c Hin) as [Htag Hc]. apply IH; [done| |done].
    intros Hproto. by specialize (Htag _ Hproto).
Qed.

Lemma children_tagged_elem (k : string) (content : list xml) (c : xml) :
  c ∈ children_tagged k content ↔ c ∈ content ∧ tag_of c = Some k.
Proof. unfold children_tagged. rewrite list_elem_of_filter. by split; intros [??]. Qed.

Lemma children_tagged_none (k : string) (content : list xml) :
  k ∉ child_tags content → children_tagged k content = [].
Proof.
  unfold children_tagged, child_tags.
  induction content as [|d content IH]; intros Hk; [done|].
  rewrite filter_cons. simpl in Hk. destruct (decide (tag_of d = Some k)) as [Hd|Hd].
  - rewrite Hd in Hk. destruct Hk. by left.
  - apply IH. destruct (tag_of d); [|done]. by apply not_elem_of_cons in Hk as [_ ?].
Qed.

(** With distinct sibling tags, a tag has one child. *)
Lemma children_tagged_lone (k : string) (content : list xml) (c : xml) :
  NoDup (child_tags content) → c ∈ content → tag_of c = Some k →
  children_tagged k content = [c].
Proof.
  induction content as [|d content IH]; intros Hnodup Hin Hc.
  - by apply elem_of_nil in Hin.
  - unfold children_tagged. rewrite filter_cons.
    unfold child_tags in Hnodup. simpl in Hnodup.
    assert (∀ e, e ∈ content → tag_of e = Some k → k ∈ child_tags content) as Hmem.
    { intros e He Hk. apply list_elem_of_omap. eauto. }
    destruct (decide (tag_of d = Some k)) as [Hd|Hd].
    + rewrite Hd in Hnodup. apply NoDup_cons in Hnodup as [Hnotin _].
      apply elem_of_cons in Hin as [->|Hin]; [|by destruct (Hnotin (Hmem c Hin Hc))].
      f_equal. by apply children_tagged_none.
    + apply elem_of_cons in Hin as [->|Hin]; [done|].
      apply IH; [|done..].
      destruct (tag_of d); [by apply NoDup_cons in Hnodup as [_ ?]|done].
Qed.

Lemma slot_elem (js : list json) (j : json) :
  j ∈ js → ∃ v, slot js = Some v ∧ (v = j ∨ v = JArr js).
Proof.
  destruct js as [|j1 [|j2 js]]; intros Hin.
  - by apply elem_of_nil in Hin.
  - apply list_elem_of_singleton in Hin as ->. eauto.
  - eauto.
Qed.

(** When no child element is tagged with a reserved key, the node of
    every element of the document is in the tree of the document. *)
Lemma occurs_subelement (x y : xml) :
  tidy x = true → y ∈ subelements x → occurs (json_of y) (json_of x).
Proof.
  revert y. induction x as [t a content IH| |] using xml_ind'; intros y Htidy Hin;
    [|by apply elem_of_nil in Hin..].
  simpl in Hin. apply elem_of_cons in Hin as [->|Hin]; [constructor|].
  apply list_elem_of_In, in_flat_map in Hin as (c & Hc%list_elem_of_In & Hy%list_elem_of_In).
  apply tidy_element in Htidy. rewrite Forall_forall in IH, Htidy.
  destruct (Htidy c Hc) as [Htag Htidy_c].
  specialize (IH c Hc y Htidy_c Hy).
  destruct c as [k b inner| |]; [|by apply elem_of_nil in Hy..].
  destruct (node_children t a content k (Htag k eq_refl)) as (o & -> & Ho).
  destruct (slot_elem (json_of <$> children_tagged k content)
              (json_of (Element k b inner))) as (v & Hv & [->| ->]).
  - apply list_elem_of_fmap. eexists. split; [done|]. by apply children_tagged_elem.
  - eapply occurs_field; [by rewrite Ho|done].
  - eapply occurs_field; [by rewrite Ho|].
    eapply occurs_item; [|done].
    apply list_elem_of_fmap. eexists. split; [done|]. by apply children_tagged_elem.
Qed.

(** With distinct sibling tags and no reserved tag, every child key holds
    a lone node. *)
Lemma lone_tree_json_of (x : xml) :
  tidy x = true → distinct_siblings x = true → is_Some (tag_of x) →
  lone_tree (json_of x).
Proof.
  induction x as [t a content IH| |] using xml_ind';
    intros Htidy Hdistinct Helement; [|by destruct Helement..].
  apply tidy_element in Htidy.
  apply distinct_siblings_element in Hdistinct as [Hnodup Hdistinct].
  rewrite Forall_forall in IH, Htidy, Hdistinct.
  assert (∀ k, reserved k = true → Forall (λ c, tag_of c ≠ Some k) content) as Hfree.
  { intros k Hk. apply Forall_forall. intros c Hc Htag.
    destruct (Htidy c Hc) as [Hres _]. specialize (Hres k Htag). congruence. }
  rewrite json_of_element.
  apply (lone_tree_node _ t a).
  - rewrite foldl_jabsorb_keeps; [done|by apply Hfree|done].
  - rewrite foldl_jabsorb_keeps; [done|by apply Hfree|done].
  - intros k j Hk Hown.
    assert (k ≠ "name" ∧ k ≠ "attr" ∧ k ≠ "innerText") as (Hname & Hattr & Htext).
    { unfold own_fields in Hown. repeat split; intros ->; apply Hown; repeat constructor. }
    destruct (decide (Forall (λ c, tag_of c ≠ Some k) content)) as [Hnone|Hsome].
    { rewrite foldl_jabsorb_keeps in Hk by done.
      unfold jliteral in Hk. by rewrite !lookup_insert_ne in Hk. }
    apply not_Forall_Exists in Hsome; [|apply _].
    apply Exists_exists in Hsome as (c & Hc & Htag).
    assert (tag_of c = Some k) as Hck.
    { destruct (decide (tag_of c = Some k)); [done|by destruct Htag]. }
    destruct (Htidy c Hc) as [Hres Htidy_c].
    destruct (node_children t a content k (Hres k Hck)) as (o & Ho & Hslot).
    rewrite json_of_element in Ho. simplify_eq.
    rewrite Hslot, (children_tagged_lone k content c Hnodup Hc Hck) in Hk.
    simpl in Hk. simplify_eq.
    apply IH; [done|done|by apply Hdistinct|by rewrite Hck].
Qed.

(** ** Writes that leave [attr] alone *)

Lemma keeps_attr_refl (h : heap) : keeps_attr h h.
Proof. intros l o v ??. eauto. Qed.

Lemma keeps_attr_trans (h1 h2 h3 : heap) :
  keeps_attr h1 h2 → keeps_attr h2 h3 → keeps_attr h1 h3.
Proof.
  intros H12 H23 l o v Hl Hv. destruct (H12 l o v Hl Hv) as (o' & Hl' & Hv').
  by apply (H23 l o' v).
Qed.

Lemma frame_ret {A} (a : A) : frame (mret a).
Proof. intros s a' s' [= <- <-]. apply keeps_attr_refl. Qed.

(** [frame] is kept by sequencing. *)
Lemma frame_bind {A B} (m : M A) (f : A → M B) :
  frame m → (∀ a, frame (f a)) → frame (m ≫= f).
Proof.
  intros Hm Hf s b s'. unfold mbind, M_bind.
  destruct (m s) as [[a s1]| |] eqn:Hs; [|done..].
  intros Hfa. eapply keeps_attr_trans; [by eapply Hm|by eapply Hf].
Qed.

Lemma frame_same {A} (m : M A) :
  (∀ s a s', m s = Returns (a, s') → objects s' = objects s) → frame m.
Proof. intros Hm s a s' Hs. rewrite (Hm _ _ _ Hs). apply keeps_attr_refl. Qed.

Lemma frame_lift_read {A} (f : heap → outcome A) : frame (lift_read f).
Proof.
  apply frame_same. intros s a s'. unfold lift_read.
  destruct (f (objects s)); simpl; by intros [= <- <-].
Qed.

Lemma keeps_attr_insert (h : heap) (l : loc) (o o' : obj) :
  h !! l = Some o → o' !! "attr" = o !! "attr" → keeps_attr h (<[l := o']> h).
Proof.
  intros Hl Ho l' o1 v Hl' Hv. destruct (decide (l = l')) as [<-|Hne].
  - exists o'. split; [|simplify_eq; congruence].
    apply list_lookup_insert_eq. by apply (lookup_lt_Some _ _ o).
  - exists o1. by rewrite list_lookup_insert_ne.
Qed.

Lemma frame_set (v : value) (k : string) (x : value) : k ≠ "attr" → frame (set v k x).
Proof.
  intros Hk s [] s'. unfold set, lift_write, set_property.
  destruct v as [| | | | | | | |l]; try done.
  destruct (objects s !! l) as [o|] eqn:Hl; [|done].
  destruct (String.eqb k "__proto__"); [done|]. simpl. intros [= <-]. simpl.
  apply (keeps_attr_insert _ _ o); [done|]. by rewrite lookup_insert_ne.
Qed.

Lemma frame_del (v : value) (k : string) : k ≠ "attr" → frame (del v k).
Proof.
  intros Hk s [] s'. unfold del, lift_write, delete_property.
  destruct v as [| | | | | | | |l]; try done.
  destruct (objects s !! l) as [o|] eqn:Hl; [|done].
  simpl. intros [= <-]. simpl.
  apply (keeps_attr_insert _ _ o); [done|]. by rewrite lookup_delete_ne.
Qed.

Lemma frame_alloc (o : obj) : frame (alloc o).
Proof.
  intros s a s' [= <- <-]. simpl. intros l o1 v Hl Hv.
  exists o1. split; [|done]. rewrite lookup_app_l; [done|by eapply lookup_lt_Some].
Qed.

Lemma frame_pop : frame pop.
Proof.
  apply frame_same. intros s a s'. unfold pop.
  destruct (elementsStack s); by intros [= <- <-].
Qed.

Lemma frame_push (v : value) : frame (push v).
Proof. apply frame_same. by intros s a s' [= <- <-]. Qed.

(** No event but the open tag of an element named [attr] changes an [attr] field. *)
Lemma frame_write_cdata (c : string) : frame (write_cdata c).
Proof. apply frame_same. by intros s a s' [= <- <-]. Qed.

Lemma frame_read_cdata : frame read_cdata.
Proof. apply frame_same. by intros s a s' [= <- <-]. Qed.

Lemma frame_console_log (line : string) : frame (console_log line).
Proof. apply frame_same. by intros s a s' [= <- <-]. Qed.

Lemma frame_throw {A} (e : exn) : frame (@throw A e).
Proof. by intros s a s'. Qed.

Lemma frame_unmodelled {A} : frame (@unmodelled A).
Proof. by intros s a s'. Qed.

Lemma frame_array_push (v : value) (k : string) (x : value) :
  k ≠ "attr" → frame (array_push v k x).
Proof.
  intros Hk. unfold array_push. apply frame_bind; [apply frame_lift_read|].
  intros []; try apply frame_throw. by apply frame_set.
Qed.

Lemma frame_array_last (v : value) (k : string) : frame (array_last v k).
Proof.
  unfold array_last. apply frame_bind; [apply frame_lift_read|].
  intros []; try apply frame_unmodelled. apply frame_ret.
Qed.

Create HintDb frame.
Lemma frame_has (k : string) (v : value) : frame (has k v).
Proof. apply frame_lift_read. Qed.

Lemma frame_get (v : value) (k : string) : frame (get v k).
Proof. apply frame_lift_read. Qed.

Lemma frame_ownPropertyNames (v : value) : frame (ownPropertyNames v).
Proof. apply frame_lift_read. Qed.

#[local] Hint Resolve frame_has frame_get frame_ownPropertyNames : frame.
#[local] Hint Resolve frame_ret frame_lift_read frame_alloc frame_pop frame_push
  frame_write_cdata frame_read_cdata frame_console_log frame_throw frame_unmodelled
  frame_array_last : frame.

Ltac frame_step :=
  first [ apply frame_array_push; done
        | apply frame_array_last
        | apply frame_set; done
        | apply frame_del; done
        | solve [auto with frame]
        | match goal with |- frame (if ?b then _ else _) => destruct b end
        | apply frame_bind; [|intros ?] ].

Lemma frame_onopentag (jsonObj : value) (tag : Sax.tag) :
  Sax.name tag ≠ "attr" → frame (onopentag jsonObj tag).
Proof. intros Hname. unfold onopentag. repeat frame_step. Qed.

Lemma frame_ontext (text : string) : frame (ontext text).
Proof. unfold ontext. repeat frame_step. Qed.

Lemma frame_onclosecdata : frame onclosecdata.
Proof. unfold onclosecdata. repeat frame_step. Qed.

Lemma frame_emit (jsonObj : value) (e : Sax.event) :
  opens_no_attr e → frame (emit jsonObj e).
Proof.
  destruct e; simpl; intros He.
  - by apply frame_onopentag.
  - apply frame_ontext.
  - unfold onopencdata. auto with frame.
  - unfold oncdata. repeat frame_step.
  - apply frame_onclosecdata.
  - unfold onclosetag. repeat frame_step.
  - unfold onerror. auto with frame.
Qed.

Lemma frame_write (jsonObj : value) (events : list Sax.event) :
  Forall opens_no_attr events → frame (write jsonObj events).
Proof.
  induction 1 as [|e events He _ IH]; simpl.
  - apply frame_ret.
  - apply frame_bind; [by apply frame_emit|done].
Qed.


(** * Children, siblings and attributes *)

(** The node of an element none of whose children is tagged [attr] holds
    the attributes of its open tag. *)
Lemma node_attributes (t : string) (a : gmap string string) (content : list xml) :
  "attr" ∉ child_tags content →
  ∃ o, json_of (Element t a content) = JObj o ∧ o !! "attr" = Some (JAttrs a).
Proof.
  intros Hno. eexists. split; [apply json_of_element|].
  rewrite foldl_jabsorb_keeps; [done| |done].
  apply Forall_forall. intros c Hc Htag. apply Hno.
  apply list_elem_of_omap. eauto.
Qed.

(** C1, for tags that are not reserved keys: when the events are those of
    a well-formed document, [parse] delivers the tree of the document, and
    in it every element that has N >= 2 children tagged [k] maps [k] to
    the sequence of the N nodes of these children, in document order,
    whatever other children stand between them.  [k] is any tag but
    [name], [attr], [innerText] and the property names of
    [Object.prototype]. *)
Theorem repeated_children_form_a_sequence
    (sax : string → list Sax.event) (xmlSource : string)
    (t : string) (a : gmap string string) (content : list xml) :
  sax xmlSource = events_of (Element t a content) →
  modelled (Element t a content) = true →
  callback_calls (parse sax xmlSource) = [JObj {[ t := json_of (Element t a content) ]}]
  ∧ ∀ (tagName : string) (attrs : gmap string string) (children : list xml) (k : string),
      Element tagName attrs children ∈ subelements (Element t a content) →
      reserved k = false →
      2 ≤ length (children_tagged k children) →
      ∃ o, json_of (Element tagName attrs children) = JObj o
           ∧ o !! k = Some (JArr (json_of <$> children_tagged k children))
           ∧ length (json_of <$> children_tagged k children)
             = length (children_tagged k children)
           ∧ (tidy (Element t a content) = true →
              occurs (json_of (Element tagName attrs children))
                     (json_of (Element t a content))).
Proof.
  intros Hevents Hmodelled. split.
  - by rewrite (parse_document sax xmlSource t a content Hevents Hmodelled).
  - intros tagName attrs children k Hin Hk Hmany.
    destruct (node_children tagName attrs children k Hk) as (o & Ho & Hslot).
    exists o. split; [done|]. split; [|split].
    + rewrite Hslot.
      destruct (children_tagged k children) as [|c1 [|c2 cs]]; simpl in *; [lia..|done].
    + apply length_fmap.
    + intros Htidy. by apply occurs_subelement.
Qed.

Lemma repeated_children_form_a_sequence_witness :
  callback_calls (parse SaxReference.sax interleaved_document)
    = [JObj {[ "a" := json_of (Element "a" ∅ interleaved_content) ]}]
  ∧ ∃ o, json_of (Element "a" ∅ interleaved_content) = JObj o
         ∧ o !! "b" = Some (JArr [ json_of (Element "b" ∅ []); json_of (Element "b" ∅ []) ]).
Proof.
  destruct (repeated_children_form_a_sequence SaxReference.sax interleaved_document
              "a" ∅ interleaved_content) as [Hcalls Hall].
  - vm_compute. reflexivity.
  - reflexivity.
  - split; [exact Hcalls|].
    destruct (Hall "a" ∅ interleaved_content "b") as (o & Ho & Hk & _).
    + left.
    + reflexivity.
    + vm_compute. lia.
    + exists o. split; [exact Ho|exact Hk].
Defined.

(** C2, for tags that are not reserved keys: for a well-formed document
    with one root, in which no two siblings share a tag and no child
    element is tagged with a reserved key, the tree delivered has exactly
    one key, the root tag, and under it an element node all of whose
    child keys, at any depth, hold a lone element node. *)
Theorem distinct_siblings_stay_lone
    (sax : string → list Sax.event) (xmlSource : string)
    (t : string) (a : gmap string string) (content : list xml) :
  sax xmlSource = events_of (Element t a content) →
  t ≠ "__proto__" →
  tidy (Element t a content) = true →
  distinct_siblings (Element t a content) = true →
  ∃ root, callback_calls (parse sax xmlSource) = [JObj {[ t := root ]}]
          ∧ lone_tree root.
Proof.
  intros Hevents Ht Htidy Hdistinct.
  exists (json_of (Element t a content)). split.
  - rewrite (parse_document sax xmlSource t a content Hevents); [done|].
    apply tidy_modelled; [|done]. simpl. congruence.
  - by apply lone_tree_json_of.
Qed.

Lemma distinct_siblings_stay_lone_witness :
  ∃ root, callback_calls (parse SaxReference.sax nested_document) = [JObj {[ "a" := root ]}]
          ∧ lone_tree root.
Proof.
  apply (distinct_siblings_stay_lone SaxReference.sax nested_document "a" ∅ nested_content).
  - vm_compute. reflexivity.
  - discriminate.
  - reflexivity.
  - vm_compute. reflexivity.
Defined.

(** C4, for elements without a child tagged [attr]: in the tree delivered
    for a well-formed document the [attr] of such an element is the
    attribute map of its open tag; and, for any stream of events, no
    event other than the open tag of an element named [attr] changes the
    [attr] field of an object already on the heap. *)
Theorem attributes_are_kept
    (sax : string → list Sax.event) (xmlSource : string)
    (t : string) (a : gmap string string) (content : list xml) :
  sax xmlSource = events_of (Element t a content) →
  modelled (Element t a content) = true →
  callback_calls (parse sax xmlSource) = [JObj {[ t := json_of (Element t a content) ]}]
  ∧ (∀ (tagName : string) (attrs : gmap string string) (children : list xml),
       Element tagName attrs children ∈ subelements (Element t a content) →
       "attr" ∉ child_tags children →
       ∃ o, json_of (Element tagName attrs children) = JObj o
            ∧ o !! "attr" = Some (JAttrs attrs)
            ∧ (tidy (Element t a content) = true →
               occurs (json_of (Element tagName attrs children))
                      (json_of (Element t a content))))
  ∧ (∀ (jsonObj : value) (events : list Sax.event) (s s' : store),
       Forall opens_no_attr events →
       write jsonObj events s = Returns ((), s') →
       keeps_attr (objects s) (objects s')).
Proof.
  intros Hevents Hmodelled. split; [|split].
  - by rewrite (parse_document sax xmlSource t a content Hevents Hmodelled).
  - intros tagName attrs children Hin Hno.
    destruct (node_attributes tagName attrs children Hno) as (o & Ho & Hattr).
    exists o. split; [done|]. split; [done|].
    intros Htidy. by apply occurs_subelement.
  - intros jsonObj events s s' Hall Hwrite.
    by apply (frame_write jsonObj events Hall s () s').
Qed.

Lemma attributes_are_kept_witness :
  callback_calls (parse SaxReference.sax roundtrip_document)
    = [JObj {[ "a" := json_of (Element "a" {[ "x" := "1" ]}
                                 roundtrip_content) ]}]
  ∧ ∃ o, json_of (Element "a" {[ "x" := "1" ]}
                    roundtrip_content)
         = JObj o
         ∧ o !! "attr" = Some (JAttrs {[ "x" := "1" ]}).
Proof.
  destruct (attributes_are_kept SaxReference.sax roundtrip_document "a" {[ "x" := "1" ]}
              roundtrip_content)
    as (Hcalls & Hall & _).
  - vm_compute. reflexivity.
  - reflexivity.
  - split; [exact Hcalls|].
    destruct (Hall "a" {[ "x" := "1" ]}
                roundtrip_content)
      as (o & Ho & Hattr & _).
    + left.
    + vm_compute. intros Hin. inversion Hin as [|?? ? Hin']; subst.
      inversion Hin' as [|?? ? Hin'']; subst. inversion Hin''.
    + exists o. split; [exact Ho|exact Hattr].
Defined.

(** ** Children whose tag is a key the parent already has *)

(** C1 fails for two children tagged [name]: the parent's own [name]
    field counts as an earlier child, so the sequence under [name] has
    three entries, the first of them the parent's tag name, and the
    parent has lost its [name]. *)
Lemma two_name_children_make_three_entries :
  SaxReference.sax two_name_children_document = two_name_children_events
  ∧ events_of (Element "a" ∅ [ Element "name" ∅ []; Element "name" ∅ [] ])
    = two_name_children_events
  ∧ callback_calls (parse SaxReference.sax two_name_children_document)
    = [two_name_children_tree]
  ∧ field "a" two_name_children_tree ≫= field "name"
    = Some (JArr [ JStr "a";
                   object [ ("name", JStr "name"); ("attr", JAttrs ∅) ];
                   object [ ("name", JStr "name"); ("attr", JAttrs ∅) ] ]).
Proof. repeat split; vm_compute; reflexivity. Qed.

(** C2 fails for a lone child tagged [name]: no two siblings share a
    tag, and the key [name] of the root element holds a sequence. *)
Lemma one_name_child_makes_a_sequence :
  SaxReference.sax one_name_child_document = one_name_child_events
  ∧ events_of (Element "a" ∅ [ Element "name" ∅ [] ]) = one_name_child_events
  ∧ distinct_siblings (Element "a" ∅ [ Element "name" ∅ [] ]) = true
  ∧ callback_calls (parse SaxReference.sax one_name_child_document)
    = [one_name_child_tree]
  ∧ field "a" one_name_child_tree ≫= field "name"
    = Some (JArr [ JStr "a"; object [ ("name", JStr "name"); ("attr", JAttrs ∅) ] ]).
Proof. repeat split; vm_compute; reflexivity. Qed.

(** C4 fails for a child tagged [attr]: the open-tag event of the child
    replaces the parent's attribute map by a sequence that holds the map
    and the child. *)
Lemma attr_child_replaces_the_attributes :
  SaxReference.sax attr_child_document = attr_child_events
  ∧ events_of (Element "a" {[ "x" := "1" ]} [ Element "attr" ∅ [] ]) = attr_child_events
  ∧ callback_calls (parse SaxReference.sax attr_child_document) = [attr_child_tree]
  ∧ field "a" attr_child_tree ≫= field "attr"
    = Some (JArr [ JAttrs {[ "x" := "1" ]};
                   object [ ("name", JStr "attr"); ("attr", JAttrs ∅) ] ]).
Proof. repeat split; vm_compute; reflexivity. Qed.

(** ** The tree of every well-formed document *)

(** For the events of a well-formed document none of whose elements is
    tagged [__proto__], [parse] returns and calls the callback exactly
    once, with one key, the root tag, that holds the node of the root
    element. *)
Theorem well_formed_document_tree
    (sax : string → list Sax.event) (xmlSource : string)
    (t : string) (a : gmap string string) (content : list xml) :
  sax xmlSource = events_of (Element t a content) →
  modelled (Element t a content) = true →
  parse sax xmlSource = Returns (JObj {[ t := json_of (Element t a content) ]})
  ∧ callback_calls (parse sax xmlSource)
    = [JObj {[ t := json_of (Element t a content) ]}].
Proof.
  intros Hevents Hmodelled.
  by rewrite (parse_document sax xmlSource t a content Hevents Hmodelled).
Qed.

Lemma well_formed_document_tree_witness :
  parse SaxReference.sax nested_document
    = Returns (JObj {[ "a" := json_of (Element "a" ∅ nested_content) ]})
  ∧ callback_calls (parse SaxReference.sax nested_document)
    = [JObj {[ "a" := json_of (Element "a" ∅ nested_content) ]}].
Proof.
  apply (well_formed_document_tree SaxReference.sax nested_document "a" ∅ nested_content).
  - vm_compute. reflexivity.
  - reflexivity.
Defined.

(** * Any stream of events *)

Lemma run_bind_throws {A B} (m : M A) (f : A → M B) (s : store) (e : exn) :
  m s = Throws e → (m ≫= f) s = Throws e.
Proof. intros Hm. unfold mbind, M_bind. by rewrite Hm. Qed.

Lemma write_cons_then {A} (jsonObj : value) (e : Sax.event) (rest : list Sax.event)
    (k : M A) (s : store) :
  (write jsonObj (e :: rest);; k) s
  = match emit jsonObj e s with
    | Returns (_, s1) => (write jsonObj rest;; k) s1
    | Throws x => Throws x
    | Unmodelled => Unmodelled
    end.
Proof. simpl. unfold mbind, M_bind. by destruct (emit jsonObj e s) as [[[] s1]| |]. Qed.

Lemma write_app_then {A} (jsonObj : value) (es1 es2 : list Sax.event)
    (k : M A) (s : store) :
  (write jsonObj (es1 ++ es2);; k) s
  = match write jsonObj es1 s with
    | Returns (_, s1) => (write jsonObj es2;; k) s1
    | Throws x => Throws x
    | Unmodelled => Unmodelled
    end.
Proof.
  unfold mbind at 1, M_bind at 1. rewrite write_app.
  unfold mbind, M_bind. by destruct (write jsonObj es1 s) as [[[] s1]| |].
Qed.

(** ** Events that find no open element *)

(** With no element on the stack, [pop] gives [undefined]: [ontext] and
    [onclosecdata] assign to a property of it, and [onopentag], once
    [jsonObj] has a key, tests [tagName in] it. *)
Lemma emit_no_element (r : loc) (ro : obj) (H : heap) (cd : string) (con : list string)
    (e : Sax.event) :
  H !! r = Some ro → ro ≠ ∅ → needs_element e →
  emit (VRef r) e (Store H [] cd con) = Throws TypeError.
Proof.
  intros Hro Hne He. destruct e as [[t a]| | | | | |]; try done.
  unfold emit, onopentag; simpl.
  rewrite (run_bind _ _ _ _ _ (run_names H _ _ _ r _ Hro)).
  rewrite (names_of_nonempty _ Hne).
  rewrite (run_bind _ _ (Store H [] cd con) (Store H [] cd con) VUndefined eq_refl).
  by apply run_bind_throws.
Qed.

Lemma advance_counted (c : option string * nat) (e : Sax.event) (s : store) :
  counted c s → opens_no_proto e →
  match advance c e with
  | Some c' => ∃ s', emit (VRef 0) e s = Returns ((), s') ∧ counted c' s'
  | None => emit (VRef 0) e s = Throws TypeError
  end.
Proof.
  destruct s as [H st cd con]. destruct c as [root depth].
  intros ((ro & Hro & Hroot) & Hlen & Hst) He. simpl in *.
  assert (0 < length H) as Hpos by (by eapply lookup_lt_Some).
  destruct e as [[t a]|text| |text| |tagName|error]; simpl in *.
  - (* open tag *)
    destruct root as [root|].
    + destruct Hroot as [l ->].
      assert (({[ root := VRef l ]} : obj) ≠ ∅) as Hne by apply insert_non_empty.
      destruct st as [|v rest]; simpl in Hlen; subst depth.
      * by apply (emit_no_element 0 {[ root := VRef l ]} H cd con (open_tag t a)).
      * apply Forall_cons in Hst as [(q & -> & Hq0 & Hq) Hrest].
        destruct (lookup_lt_is_Some_2 H q Hq) as [qo Hqo].
        eexists. split; [by eapply onopentag_child|].
        split; [|split]; simpl.
        -- exists {[ root := VRef l ]}. split; [|by eexists].
           rewrite lookup_app_l by (by rewrite length_insert).
           rewrite list_lookup_insert_ne by lia. done.
        -- done.
        -- rewrite length_app, length_insert. simpl.
           repeat constructor; [eexists; split; [done|lia]..|].
           eapply Forall_impl; [exact Hrest|]. intros v (q' & -> & ?). eexists. split; [done|lia].
    + destruct Hroot as [-> ->]. destruct st; [|done].
      eexists. split; [by eapply onopentag_root|].
      split; [|split]; simpl.
      * eexists. split; [|by eexists].
        rewrite lookup_app_l by (by rewrite length_insert).
        apply list_lookup_insert_eq. done.
      * done.
      * rewrite length_app, length_insert. simpl.
        constructor; [|done]. eexists. split; [done|lia].
  - (* text *)
    destruct st as [|v rest]; simpl in Hlen; subst depth; [done|].
    apply Forall_cons in Hst as [(q & -> & Hq0 & Hq) Hrest].
    destruct (lookup_lt_is_Some_2 H q Hq) as [qo Hqo].
    eexists. split; [by eapply ontext_run|].
    split; [|split]; simpl.
    + exists ro. split; [|done]. rewrite list_lookup_insert_ne by lia. done.
    + done.
    + rewrite length_insert. constructor; [|done]. eauto.
  - (* open cdata *)
    eexists. split; [done|]. split; [|split]; simpl; eauto.
  - (* cdata *)
    eexists. split; [done|]. split; [|split]; simpl; eauto.
  - (* close cdata *)
    destruct st as [|v rest]; simpl in Hlen; subst depth; [done|].
    apply Forall_cons in Hst as [(q & -> & Hq0 & Hq) Hrest].
    destruct (lookup_lt_is_Some_2 H q Hq) as [qo Hqo].
    eexists. split; [by eapply onclosecdata_run|].
    split; [|split]; simpl.
    + exists ro. split; [|done]. rewrite list_lookup_insert_ne by lia. done.
    + done.
    + rewrite length_insert. constructor; [|done]. eauto.
  - (* close tag *)
    destruct st as [|v rest]; simpl in Hlen; subst depth.
    + eexists. split; [done|]. split; [|split]; simpl; eauto.
    + apply Forall_cons in Hst as [_ Hrest].
      eexists. split; [done|]. split; [|split]; simpl; [|done..].
      exists ro. split; [done|]. destruct root; [done|]. by destruct Hroot.
  - (* error *)
    eexists. split; [done|]. split; [|split]; simpl; eauto.
Qed.

Lemma track_counted (events : list Sax.event) (c : option string * nat) (s : store) :
  counted c s → Forall opens_no_proto events →
  match track c events with
  | Some c' => ∃ s', write (VRef 0) events s = Returns ((), s') ∧ counted c' s'
  | None => write (VRef 0) events s = Throws TypeError
  end.
Proof.
  intros Hc Hall. revert c s Hc.
  induction Hall as [|e events He _ IH]; intros c s Hc; simpl track.
  - by exists s.
  - pose proof (advance_counted c e s Hc He) as Hstep.
    destruct (advance c e) as [c1|].
    + destruct Hstep as (s1 & Hs1 & Hc1). rewrite (write_cons _ _ _ _ _ Hs1). by apply IH.
    + simpl. by apply run_bind_throws.
Qed.

Lemma track_root (events : list Sax.event) (c c' : option string * nat) :
  track c events = Some c' →
  c'.1 = match c.1 with Some t => Some t | None => first_open_tag events end.
Proof.
  revert c. induction events as [|e events IH]; intros [root depth]; simpl.
  - intros [= <-]. by destruct root.
  - destruct e as [tag| | | | | |]; simpl;
      try (destruct depth; [done|]); try (intros Hc; by rewrite (IH _ Hc)).
    destruct root as [root|]; [destruct depth; [done|]|]; intros Hc; by rewrite (IH _ Hc).
Qed.

Lemma parse_counted (sax : string → list Sax.event) (xmlSource : string) :
  Forall opens_no_proto (sax xmlSource) →
  match track (None, 0) (sax xmlSource) with
  | Some _ =>
      ∃ o, parse sax xmlSource = Returns (JObj o)
           ∧ dom o = match first_open_tag (sax xmlSource) with
                     | Some t => {[ t ]}
                     | None => ∅
                     end
  | None => parse sax xmlSource = Throws TypeError
  end.
Proof.
  intros Hall. unfold parse.
  rewrite (run_bind _ _ empty_store (Store [∅] [] "" []) (VRef 0) eq_refl).
  assert (counted (None, 0) (Store [∅] [] "" [])) as Hc.
  { split; [|split]; simpl; [by exists ∅|done|done]. }
  pose proof (track_counted _ _ _ Hc Hall) as Hrun.
  pose proof (track_root (sax xmlSource) (None, 0)) as Hroot.
  destruct (track (None, 0) (sax xmlSource)) as [c'|].
  - destruct Hrun as (s' & Hs' & (ro & Hro & Hkey) & _).
    rewrite (run_bind _ _ _ _ _ Hs'). unfold onend, tree. simpl.
    rewrite Nat.add_1_r, (snapshot_object _ _ _ _ Hro).
    eexists. split; [done|]. rewrite dom_fmap_L.
    specialize (Hroot c' eq_refl). simpl in Hroot. rewrite <- Hroot.
    destruct (c'.1) as [t|].
    + destruct Hkey as [l ->]. by rewrite dom_singleton_L.
    + destruct Hkey as [-> _]. by rewrite dom_empty_L.
  - by rewrite (run_bind_throws _ _ _ _ Hrun).
Qed.

(** For any stream of events in which no tag is [__proto__], [parse]
    either calls the callback once or throws a [TypeError] without calling
    it, and [track] tells which: it throws exactly when a text event, the
    end of a CDATA section, or an open tag other than the first arrives
    while no element is open.  What is delivered is an object whose only
    key is the tag of the first open-tag event, or an empty object when
    the stream opens no tag. *)
Theorem parse_outcome_of_any_stream
    (sax : string → list Sax.event) (xmlSource : string) :
  Forall opens_no_proto (sax xmlSource) →
  (is_Some (track (None, 0) (sax xmlSource)) →
     ∃ o, parse sax xmlSource = Returns (JObj o)
          ∧ callback_calls (parse sax xmlSource) = [JObj o]
          ∧ dom o = match first_open_tag (sax xmlSource) with
                    | Some t => {[ t ]}
                    | None => ∅
                    end)
  ∧ (track (None, 0) (sax xmlSource) = None →
     parse sax xmlSource = Throws TypeError
     ∧ callback_calls (parse sax xmlSource) = []).
Proof.
  intros Hall. pose proof (parse_counted sax xmlSource Hall) as Hrun.
  destruct (track (None, 0) (sax xmlSource)) as [c'|].
  - split; [|done]. intros _. destruct Hrun as (o & Ho & Hdom).
    exists o. by rewrite Ho.
  - split; [by intros [? [=]]|]. intros _. by rewrite Hrun.
Qed.

Lemma parse_outcome_of_any_stream_witness :
  (∃ o, parse (λ _, unclosed_events) "<a><b>" = Returns (JObj o)
        ∧ callback_calls (parse (λ _, unclosed_events) "<a><b>") = [JObj o]
        ∧ dom o = {[ "a" ]})
  ∧ parse SaxReference.sax trailing_text_document = Throws TypeError
  ∧ callback_calls (parse SaxReference.sax trailing_text_document) = [].
Proof.
  split.
  - apply (proj1 (parse_outcome_of_any_stream (λ _, unclosed_events) "<a><b>"
                    ltac:(repeat constructor; discriminate))).
    vm_compute. eauto.
  - apply (proj2 (parse_outcome_of_any_stream SaxReference.sax trailing_text_document
                    ltac:(vm_compute; repeat constructor; discriminate))).
    vm_compute. reflexivity.
Defined.

Lemma write_document (t : string) (a : gmap string string) (content : list xml) :
  modelled (Element t a content) = true →
  write (VRef 0) (events_of (Element t a content)) (Store [∅] [] "" [])
  = Returns ((), Store ([ {[ t := VRef 1 ]} ] ++ cells 1 (Element t a content)) [] "" []).
Proof.
  intros Hmodelled.
  pose proof (modelled_element _ _ _ Hmodelled) as [Ht Hcontent].
  assert (([∅] : heap) !! 0 = Some ∅) as Hroot by done.
  simpl events_of.
  rewrite (write_cons (VRef 0) (open_tag t a) _ _ _
             (onopentag_root 0 [∅] [] "" [] t a Hroot Ht)).
  rewrite write_app.
  set (H1 := <[0 := {[ t := VRef 1 ]}]> [∅] ++ [element_literal t a]).
  assert (Forall (runs 0 {[ t := VRef 1 ]}) content) as Hruns.
  { eapply Forall_impl; [exact Hcontent|]. intros c Hc.
    apply runs_modelled; [|done]. apply insert_non_empty. }
  rewrite (run_bind _ _ _ _ _
             (runs_content 0 {[ t := VRef 1 ]} content Hruns H1 1 (element_literal t a)
                [] [] eq_refl ltac:(done) eq_refl)).
  unfold write, emit, onclosetag, pop, mbind, M_bind, mret, M_ret; simpl.
  done.
Qed.

(** After the events of a whole document, whose root element has closed,
    any further text event, end of a CDATA section or open tag makes
    [parse] throw a [TypeError], and the callback is never called: a
    second root element, or text after the root, loses the whole tree. *)
Theorem content_after_the_root_throws
    (sax : string → list Sax.event) (xmlSource : string)
    (t : string) (a : gmap string string) (content : list xml)
    (e : Sax.event) (rest : list Sax.event) :
  sax xmlSource = events_of (Element t a content) ++ e :: rest →
  modelled (Element t a content) = true →
  needs_element e →
  parse sax xmlSource = Throws TypeError
  ∧ callback_calls (parse sax xmlSource) = [].
Proof.
  intros Hevents Hmodelled He.
  assert (parse sax xmlSource = Throws TypeError) as ->; [|done].
  unfold parse. rewrite Hevents.
  rewrite (run_bind _ _ empty_store (Store [∅] [] "" []) (VRef 0) eq_refl).
  rewrite write_app_then, (write_document t a content Hmodelled).
  assert (({[ t := VRef 1 ]} : obj) ≠ ∅) as Hne by apply insert_non_empty.
  rewrite (run_bind_throws (write (VRef 0) (e :: rest)) _ _ TypeError); [done|].
  apply (run_bind_throws (emit (VRef 0) e)).
  by apply (emit_no_element 0 {[ t := VRef 1 ]}).
Qed.

Lemma content_after_the_root_throws_witness :
  parse SaxReference.sax "<a/><b/>" = Throws TypeError
  ∧ callback_calls (parse SaxReference.sax "<a/><b/>") = [].
Proof.
  apply (content_after_the_root_throws SaxReference.sax "<a/><b/>" "a" ∅ []
           (Sax.Text "<b/>") []).
  - vm_compute. reflexivity.
  - reflexivity.
  - exact I.
Defined.

(** Events that touch no element, at the end of the stream, change
    nothing of the outcome: the close tags of the elements still open can
    be missing, and the same tree is delivered. *)
Theorem trailing_close_tags_change_no_tree (sax sax' : string → list Sax.event)
    (xmlSource : string) (tail : list Sax.event) :
  sax' xmlSource = sax xmlSource ++ tail →
  Forall touches_no_element tail →
  parse sax' xmlSource = parse sax xmlSource.
Proof.
  intros Hsax Htail. unfold parse. rewrite Hsax.
  rewrite !(run_bind _ _ empty_store (Store [∅] [] "" []) (VRef 0) eq_refl).
  rewrite write_app_then. unfold mbind at 2, M_bind at 2.
  destruct (write (VRef 0) (sax xmlSource) _) as [[[] s1]| |]; [|done..].
  unfold mbind, M_bind.
  destruct (write_touches_no_element (VRef 0) tail s1 Htail) as (s2 & -> & Hobjects).
  unfold onend. simpl. by rewrite Hobjects.
Qed.

Lemma trailing_close_tags_change_no_tree_witness :
  parse (λ _, events_of (Element "a" ∅ [ Element "b" ∅ [] ])) "<a><b>"
  = parse (λ _, unclosed_events) "<a><b>".
Proof.
  apply (trailing_close_tags_change_no_tree (λ _, unclosed_events) _ "<a><b>"
           [ Sax.CloseTag "b"; Sax.CloseTag "a" ]).
  - reflexivity.
  - repeat constructor.
Defined.

(** * Lexical errors *)

Create HintDb silent.

Lemma silent_ret {A} (a : A) : silent (mret a).
Proof. done. Qed.

Lemma silent_bind {A B} (m : M A) (f : A → M B) :
  silent m → (∀ a, silent (f a)) → silent (m ≫= f).
Proof.
  intros Hm Hf s c. unfold mbind, M_bind. rewrite Hm.
  destruct (m s) as [[a s1]| |]; simpl; [apply Hf|done..].
Qed.

Lemma silent_lift_read {A} (f : heap → outcome A) : silent (lift_read f).
Proof. intros s c. unfold lift_read. simpl. by destruct (f (objects s)). Qed.

Lemma silent_lift_write (f : heap → outcome heap) : silent (lift_write f).
Proof. intros s c. unfold lift_write. simpl. by destruct (f (objects s)). Qed.

Lemma silent_alloc (o : obj) : silent (alloc o).
Proof. done. Qed.

Lemma silent_pop : silent pop.
Proof. intros s c. unfold pop. simpl. by destruct (elementsStack s). Qed.

Lemma silent_push (v : value) : silent (push v).
Proof. done. Qed.

Lemma silent_read_cdata : silent read_cdata.
Proof. done. Qed.

Lemma silent_write_cdata (c : string) : silent (write_cdata c).
Proof. done. Qed.

Lemma silent_throw {A} (e : exn) : silent (@throw A e).
Proof. done. Qed.

Lemma silent_unmodelled {A} : silent (@unmodelled A).
Proof. done. Qed.

Lemma silent_has (k : string) (v : value) : silent (has k v).
Proof. apply silent_lift_read. Qed.

Lemma silent_get (v : value) (k : string) : silent (get v k).
Proof. apply silent_lift_read. Qed.

Lemma silent_set (v : value) (k : string) (x : value) : silent (set v k x).
Proof. apply silent_lift_write. Qed.

Lemma silent_del (v : value) (k : string) : silent (del v k).
Proof. apply silent_lift_write. Qed.

Lemma silent_ownPropertyNames (v : value) : silent (ownPropertyNames v).
Proof. apply silent_lift_read. Qed.

Lemma silent_array_push (v : value) (k : string) (x : value) : silent (array_push v k x).
Proof.
  unfold array_push. apply silent_bind; [apply silent_get|].
  intros []; try apply silent_throw. apply silent_set.
Qed.

Lemma silent_array_last (v : value) (k : string) : silent (array_last v k).
Proof.
  unfold array_last. apply silent_bind; [apply silent_get|].
  intros []; try apply silent_unmodelled. apply silent_ret.
Qed.

#[local] Hint Resolve silent_ret silent_alloc silent_pop silent_push silent_read_cdata
  silent_write_cdata silent_throw silent_unmodelled silent_has silent_get silent_set
  silent_del silent_ownPropertyNames silent_array_push silent_array_last : silent.

Ltac silent_step :=
  first [ apply silent_array_push
        | apply silent_array_last
        | solve [auto with silent]
        | match goal with |- silent (if ?b then _ else _) => destruct b end
        | apply silent_bind; [|intros ?] ].

(** Every handler but [onerror] leaves the console alone. *)
Lemma silent_emit (jsonObj : value) (e : Sax.event) :
  is_error e = false → silent (emit jsonObj e).
Proof.
  destruct e; [| | | | | |done]; intros _; simpl.
  - unfold onopentag. repeat silent_step.
  - unfold ontext. repeat silent_step.
  - unfold onopencdata. repeat silent_step.
  - unfold oncdata. repeat silent_step.
  - unfold onclosecdata. repeat silent_step.
  - unfold onclosetag. repeat silent_step.
Qed.

Lemma silent_console {A} (m : M A) (s s' : store) (a : A) :
  silent m → m s = Returns (a, s') → console s' = console s.
Proof.
  intros Hm Hret. specialize (Hm s (console s)).
  replace (with_console (console s) s) with s in Hm by (by destruct s).
  rewrite Hret in Hm. simpl in Hm. injection Hm as Hs'. by rewrite Hs'.
Qed.

Lemma write_without_errors (jsonObj : value) (events : list Sax.event)
    (s : store) (c : list string) :
  fst <$> (write jsonObj events;; onend jsonObj) (with_console c s)
  = fst <$> (write jsonObj (filter (λ e, is_error e = false) events);; onend jsonObj) s.
Proof.
  revert s c. induction events as [|e events IH]; intros s c.
  - done.
  - rewrite filter_cons. destruct (decide (is_error e = false)) as [He|He].
    + pose proof (silent_emit jsonObj e He s c) as Hstep.
      rewrite !write_cons_then, Hstep.
      destruct (emit jsonObj e s) as [[[] s1]| |]; simpl; [|done..].
      apply IH.
    + destruct e; try done. rewrite write_cons_then. simpl.
      apply (IH s (c ++ ["error: " +:+ error])).
Qed.

(** The errors the lexical source reports change nothing of the outcome
    of [parse]: [onerror] logs and resumes, so the tree delivered, or the
    exception thrown, is that of the stream without its error events. *)
Theorem lexical_errors_change_no_tree (sax sax' : string → list Sax.event)
    (xmlSource : string) :
  sax' xmlSource = filter (λ e, is_error e = false) (sax xmlSource) →
  parse sax xmlSource = parse sax' xmlSource.
Proof.
  intros Hsax. unfold parse. rewrite Hsax.
  rewrite !(run_bind _ _ empty_store (Store [∅] [] "" []) (VRef 0) eq_refl).
  apply (write_without_errors (VRef 0) (sax xmlSource) (Store [∅] [] "" []) []).
Qed.

Lemma lexical_errors_change_no_tree_witness :
  parse (λ _, events_with_error) "<a b=c/>"
  = parse (λ _, events_of (Element "a" ∅ [])) "<a b=c/>".
Proof.
  apply (lexical_errors_change_no_tree (λ _, events_with_error)
           (λ _, events_of (Element "a" ∅ [])) "<a b=c/>").
  reflexivity.
Defined.

(** [onerror] writes one line, [error: ] followed by the error, for each
    error event, in the order of the events, and no other handler writes
    to the console. *)
Theorem errors_are_logged_in_order (jsonObj : value) (events : list Sax.event)
    (s s' : store) :
  write jsonObj events s = Returns ((), s') →
  console s' = console s ++ error_lines events.
Proof.
  revert s. induction events as [|e events IH]; intros s.
  - intros [= <-]. by rewrite app_nil_r.
  - simpl write. unfold mbind, M_bind.
    destruct (emit jsonObj e s) as [[[] s1]| |] eqn:Hstep; [|done..].
    intros Hrest. rewrite (IH _ Hrest).
    destruct (is_error e) eqn:He.
    + destruct e; try done. simpl in Hstep. injection Hstep as <-. simpl.
      by rewrite <- app_assoc.
    + rewrite (silent_console _ _ _ _ (silent_emit jsonObj e He) Hstep).
      by destruct e.
Qed.

Lemma errors_are_logged_in_order_witness :
  console (Store [ {[ "a" := VRef 1 ]}; element_literal "a" ∅ ] [] ""
             [ "error: Unquoted attribute value" ])
  = [] ++ error_lines events_with_error.
Proof.
  apply (errors_are_logged_in_order (VRef 0) events_with_error (Store [∅] [] "" [])).
  vm_compute. reflexivity.
Defined.

(** * Text and keys of a node *)

Lemma texts_cons (c : xml) (content : list xml) :
  texts (c :: content)
  = match item_text c with
    | Some text => text :: texts content
    | None => texts content
    end.
Proof. reflexivity. Qed.

Lemma child_tags_tail (c : xml) (content : list xml) (k : string) :
  k ∉ child_tags (c :: content) → k ∉ child_tags content.
Proof.
  intros Hno Hin. apply Hno. unfold child_tags. simpl.
  destruct (tag_of c); [by right|done].
Qed.

Lemma foldl_jabsorb_innerText (content : list xml) (o : gmap string json) :
  "innerText" ∉ child_tags content →
  foldl jabsorb o content !! "innerText"
  = match last (texts content) with
    | Some text => Some (JStr text)
    | None => o !! "innerText"
    end.
Proof.
  revert o. induction content as [|c content IH]; intros o Hno; [done|].
  simpl foldl. rewrite IH by (by eapply child_tags_tail).
  rewrite texts_cons. destruct c as [k a cs|text|chunks]; cbn [item_text]; cbv iota.
  - destruct (last (texts content)); [done|].
    apply jattach_lookup_ne. intros <-. apply Hno. left.
  - rewrite last_cons.
    destruct (last (texts content)); [done|]. apply lookup_insert_eq.
  - rewrite last_cons.
    destruct (last (texts content)); [done|]. apply lookup_insert_eq.
Qed.

Lemma node_innerText (t : string) (a : gmap string string) (content : list xml) :
  "innerText" ∉ child_tags content →
  ∃ o, json_of (Element t a content) = JObj o
       ∧ o !! "innerText" = JStr <$> last (texts content).
Proof.
  intros Hno. eexists. split; [apply json_of_element|].
  rewrite foldl_jabsorb_innerText by done. by destruct (last (texts content)).
Qed.

Lemma node_name (t : string) (a : gmap string string) (content : list xml) :
  "name" ∉ child_tags content →
  ∃ o, json_of (Element t a content) = JObj o ∧ o !! "name" = Some (JStr t).
Proof.
  intros Hno. eexists. split; [apply json_of_element|].
  rewrite foldl_jabsorb_keeps; [done| |done].
  apply Forall_forall. intros c Hc Htag. apply Hno.
  apply list_elem_of_omap. eauto.
Qed.

Lemma dom_jattach (o : gmap string json) (k : string) (j : json) :
  dom (jattach o k j) = {[ k ]} ∪ dom o.
Proof.
  unfold jattach.
  destruct (own o k || inherited k); [destruct (default _ _)|]; by rewrite dom_insert_L.
Qed.

Lemma dom_jabsorb (o : gmap string json) (c : xml) :
  dom (jabsorb o c) = {[ key_of c ]} ∪ dom o.
Proof. destruct c; simpl; [apply dom_jattach|by rewrite dom_insert_L..]. Qed.

Lemma dom_foldl_jabsorb (content : list xml) (o : gmap string json) :
  dom (foldl jabsorb o content) = dom o ∪ list_to_set (key_of <$> content).
Proof.
  revert o. induction content as [|c content IH]; intros o.
  - simpl. by rewrite union_empty_r_L.
  - rewrite fmap_cons, list_to_set_cons. cbn [foldl].
    by rewrite IH, dom_jabsorb, (comm_L (∪) {[ key_of c ]} (dom o)), (assoc_L (∪)).
Qed.

Lemma node_keys (t : string) (a : gmap string string) (content : list xml) :
  ∃ o, json_of (Element t a content) = JObj o
       ∧ dom o = {[ "name"; "attr" ]} ∪ list_to_set (key_of <$> content).
Proof.
  eexists. split; [apply json_of_element|].
  rewrite dom_foldl_jabsorb. unfold jliteral.
  by rewrite !dom_insert_L, dom_empty_L, union_empty_r_L, (comm_L (∪) {[ "attr" ]}).
Qed.

(** In the tree delivered for a well-formed document, the [innerText] of
    an element without a child tagged [innerText] is the last text or
    CDATA section of its content, the chunks of a CDATA section joined;
    text is never appended to earlier text, and an element without text
    or CDATA has no [innerText]; its [name] is the tag of the element when
    no child is tagged [name]. *)
Theorem inner_text_is_the_last_text
    (sax : string → list Sax.event) (xmlSource : string)
    (t : string) (a : gmap string string) (content : list xml) :
  sax xmlSource = events_of (Element t a content) →
  modelled (Element t a content) = true →
  callback_calls (parse sax xmlSource) = [JObj {[ t := json_of (Element t a content) ]}]
  ∧ ∀ (tagName : string) (attrs : gmap string string) (children : list xml),
      Element tagName attrs children ∈ subelements (Element t a content) →
      ∃ o, json_of (Element tagName attrs children) = JObj o
           ∧ ("innerText" ∉ child_tags children →
              o !! "innerText" = JStr <$> last (texts children))
           ∧ ("name" ∉ child_tags children → o !! "name" = Some (JStr tagName))
           ∧ (tidy (Element t a content) = true →
              occurs (json_of (Element tagName attrs children))
                     (json_of (Element t a content))).
Proof.
  intros Hevents Hmodelled. split.
  - by rewrite (parse_document sax xmlSource t a content Hevents Hmodelled).
  - intros tagName attrs children Hin.
    eexists. split; [apply json_of_element|]. split; [|split].
    + intros Hno. destruct (node_innerText tagName attrs children Hno) as (o & Ho & Htext).
      rewrite json_of_element in Ho. injection Ho as <-. done.
    + intros Hno. destruct (node_name tagName attrs children Hno) as (o & Ho & Hname).
      rewrite json_of_element in Ho. injection Ho as <-. done.
    + intros Htidy. by apply occurs_subelement.
Qed.

Lemma inner_text_is_the_last_text_witness :
  callback_calls (parse SaxReference.sax mixed_document)
    = [JObj {[ "a" := json_of (Element "a" ∅ mixed_content) ]}]
  ∧ ∃ o, json_of (Element "a" ∅ mixed_content) = JObj o
         ∧ o !! "innerText" = Some (JStr "two")
         ∧ o !! "name" = Some (JStr "a").
Proof.
  destruct (inner_text_is_the_last_text SaxReference.sax mixed_document "a" ∅ mixed_content)
    as [Hcalls Hall].
  - vm_compute. reflexivity.
  - reflexivity.
  - split; [exact Hcalls|].
    destruct (Hall "a" ∅ mixed_content) as (o & Ho & Htext & Hname & _).
    + left.
    + exists o. split; [exact Ho|]. split.
      * apply Htext. vm_compute. intros Hin. inversion Hin as [|?? ? Hin']; subst.
        inversion Hin'.
      * apply Hname. vm_compute. intros Hin. inversion Hin as [|?? ? Hin']; subst.
        inversion Hin'.
Defined.

(** In the tree delivered for a well-formed document, the keys of the
    node of an element are [name], [attr], the tags of its child elements
    and, when its content has text or a CDATA section, [innerText]: there
    is no other key, whatever the tags are. *)
Theorem node_keys_are_fields_and_child_tags
    (sax : string → list Sax.event) (xmlSource : string)
    (t : string) (a : gmap string string) (content : list xml) :
  sax xmlSource = events_of (Element t a content) →
  modelled (Element t a content) = true →
  callback_calls (parse sax xmlSource) = [JObj {[ t := json_of (Element t a content) ]}]
  ∧ ∀ (tagName : string) (attrs : gmap string string) (children : list xml),
      Element tagName attrs children ∈ subelements (Element t a content) →
      ∃ o, json_of (Element tagName attrs children) = JObj o
           ∧ dom o = {[ "name"; "attr" ]} ∪ list_to_set (key_of <$> children)
           ∧ (tidy (Element t a content) = true →
              occurs (json_of (Element tagName attrs children))
                     (json_of (Element t a content))).
Proof.
  intros Hevents Hmodelled. split.
  - by rewrite (parse_document sax xmlSource t a content Hevents Hmodelled).
  - intros tagName attrs children Hin.
    destruct (node_keys tagName attrs children) as (o & Ho & Hdom).
    exists o. split; [done|]. split; [done|].
    intros Htidy. by apply occurs_subelement.
Qed.

Lemma node_keys_are_fields_and_child_tags_witness :
  callback_calls (parse SaxReference.sax mixed_document)
    = [JObj {[ "a" := json_of (Element "a" ∅ mixed_content) ]}]
  ∧ ∃ o, json_of (Element "a" ∅ mixed_content) = JObj o
         ∧ dom o = {[ "name"; "attr" ]} ∪ list_to_set (key_of <$> mixed_content).
Proof.
  destruct (node_keys_are_fields_and_child_tags SaxReference.sax mixed_document
              "a" ∅ mixed_content) as [Hcalls Hall].
  - vm_compute. reflexivity.
  - reflexivity.
  - split; [exact Hcalls|].
    destruct (Hall "a" ∅ mixed_content) as (o & Ho & Hdom & _).
    + left.
    + exists o. split; [exact Ho|exact Hdom].
Defined.

(** In the tree delivered for a well-formed document, a key [k] that is
    not reserved holds what [slot] says for the children tagged [k]: an
    element with no such child has no key [k], and an element with exactly
    one has under [k] the node of that child itself, not a sequence. *)
Theorem lone_child_is_not_wrapped
    (sax : string → list Sax.event) (xmlSource : string)
    (t : string) (a : gmap string string) (content : list xml) :
  sax xmlSource = events_of (Element t a content) →
  modelled (Element t a content) = true →
  callback_calls (parse sax xmlSource) = [JObj {[ t := json_of (Element t a content) ]}]
  ∧ ∀ (tagName : string) (attrs : gmap string string) (children : list xml) (k : string),
      Element tagName attrs children ∈ subelements (Element t a content) →
      reserved k = false →
      ∃ o, json_of (Element tagName attrs children) = JObj o
           ∧ o !! k = slot (json_of <$> children_tagged k children)
           ∧ (children_tagged k children = [] → o !! k = None)
           ∧ (∀ c, children_tagged k children = [c] →
                o !! k = Some (json_of c) ∧ ∀ js, json_of c ≠ JArr js).
Proof.
  intros Hevents Hmodelled. split.
  - by rewrite (parse_document sax xmlSource t a content Hevents Hmodelled).
  - intros tagName attrs children k Hin Hk.
    destruct (node_children tagName attrs children k Hk) as (o & Ho & Hslot).
    exists o. split; [done|]. split; [done|]. split.
    + intros Hnone. by rewrite Hslot, Hnone.
    + intros c Hone. rewrite Hslot, Hone. split; [done|].
      intros js. apply json_of_not_array.
Qed.

Lemma lone_child_is_not_wrapped_witness :
  callback_calls (parse SaxReference.sax mixed_document)
    = [JObj {[ "a" := json_of (Element "a" ∅ mixed_content) ]}]
  ∧ ∃ o, json_of (Element "a" ∅ mixed_content) = JObj o
         ∧ o !! "b" = Some (json_of (Element "b" ∅ []))
         ∧ o !! "c" = None.
Proof.
  destruct (lone_child_is_not_wrapped SaxReference.sax mixed_document "a" ∅ mixed_content)
    as [Hcalls Hall].
  - vm_compute. reflexivity.
  - reflexivity.
  - split; [exact Hcalls|].
    destruct (Hall "a" ∅ mixed_content "b") as (o & Ho & _ & _ & Hone).
    + left.
    + reflexivity.
    + destruct (Hall "a" ∅ mixed_content "c") as (o' & Ho' & _ & Hnone & _).
      * left.
      * reflexivity.
      * exists o. split; [exact Ho|]. split.
        -- apply (Hone (Element "b" ∅ [])). reflexivity.
        -- rewrite Ho' in Ho. injection Ho as <-. apply Hnone. reflexivity.
Defined.

(** * Fetching and reading *)

(** [parseFromUrl] calls the callback only for a response whose status
    code is exactly 200, with what [parse] delivers for its body; an
    error of the request, and any other status code, other successes
    such as 204 among them, is thrown as an [Error] that carries the
    error or the status code, and the callback is not called.  The
    request is a GET of the address with the caller's options. *)
Theorem parseFromUrl_calls_back_on_200_only
    (sax : string → list Sax.event) (getRequest : request_options → string + response)
    (url : string) (followRedirect : bool) (maxRedirects : Z) (encoding : string)
    (timeout : Z) :
  (∀ error,
     getRequest (get_options url followRedirect maxRedirects encoding timeout) = inl error →
     parseFromUrl sax getRequest url followRedirect maxRedirects encoding timeout
     = Throws (Error ("An error occurred: " +:+ error))
     ∧ callback_calls (parseFromUrl sax getRequest url followRedirect maxRedirects
                         encoding timeout) = [])
  ∧ (∀ code text,
       getRequest (get_options url followRedirect maxRedirects encoding timeout)
       = inr (Response code text) →
       code ≠ 200%Z →
       parseFromUrl sax getRequest url followRedirect maxRedirects encoding timeout
       = Throws (Error ("An HTTP error occurred with status code: " +:+ pretty code))
       ∧ callback_calls (parseFromUrl sax getRequest url followRedirect maxRedirects
                           encoding timeout) = [])
  ∧ (∀ text,
       getRequest (get_options url followRedirect maxRedirects encoding timeout)
       = inr (Response 200 text) →
       parseFromUrl sax getRequest url followRedirect maxRedirects encoding timeout
       = parse sax text)
  ∧ (∀ delivered,
       delivered ∈ callback_calls (parseFromUrl sax getRequest url followRedirect
                                     maxRedirects encoding timeout) →
       ∃ text,
         getRequest (get_options url followRedirect maxRedirects encoding timeout)
         = inr (Response 200 text)
         ∧ parse sax text = Returns delivered).
Proof.
  unfold parseFromUrl.
  change (RequestOptions url "GET" followRedirect maxRedirects encoding timeout)
    with (get_options url followRedirect maxRedirects encoding timeout).
  split; [|split; [|split]].
  - by intros error ->.
  - intros code text -> Hcode. simpl.
    by destruct (Z.eqb_spec code 200).
  - by intros text ->.
  - intros delivered.
    destruct (getRequest (get_options _ _ _ _ _)) as [error|[code text]]; simpl.
    + by intros ?%elem_of_nil.
    + destruct (Z.eqb_spec code 200) as [->|Hcode]; [|by intros ?%elem_of_nil].
      intros Hin. exists text. split; [done|].
      destruct (parse sax text); simpl in Hin.
      * apply list_elem_of_singleton in Hin. by subst.
      * by apply elem_of_nil in Hin.
      * by apply elem_of_nil in Hin.
Qed.

Lemma parseFromUrl_calls_back_on_200_only_witness :
  parseFromUrl SaxReference.sax (λ _, inr (Response 204 "")) "http://example.org/a.xml"
    true 10 "utf-8" 20000
  = Throws (Error "An HTTP error occurred with status code: 204")
  ∧ callback_calls (parseFromUrl SaxReference.sax (λ _, inr (Response 204 ""))
                      "http://example.org/a.xml" true 10 "utf-8" 20000) = [].
Proof.
  apply (proj1 (proj2 (parseFromUrl_calls_back_on_200_only SaxReference.sax
                         (λ _, inr (Response 204 "")) "http://example.org/a.xml"
                         true 10 "utf-8" 20000)) 204%Z "").
  - reflexivity.
  - discriminate.
Defined.

(** [parseFromFile] on a file that is read, and [parseFromUrl] on a
    response with status code 200, deliver for the text of a well-formed
    document the tree [parse] delivers for it. *)
Theorem entry_points_deliver_the_document_tree
    (sax : string → list Sax.event) (readFile : string → string + string)
    (getRequest : request_options → string + response)
    (source xmlSource : string) (followRedirect : bool) (maxRedirects : Z)
    (encoding : string) (timeout : Z)
    (t : string) (a : gmap string string) (content : list xml) :
  sax xmlSource = events_of (Element t a content) →
  modelled (Element t a content) = true →
  (readFile source = inr xmlSource →
     callback_calls (parseFromFile sax readFile source)
     = [JObj {[ t := json_of (Element t a content) ]}])
  ∧ (getRequest (RequestOptions source "GET" followRedirect maxRedirects encoding timeout)
     = inr (Response 200 xmlSource) →
     callback_calls (parseFromUrl sax getRequest source followRedirect maxRedirects
                       encoding timeout)
     = [JObj {[ t := json_of (Element t a content) ]}]).
Proof.
  intros Hevents Hmodelled.
  pose proof (parse_document sax xmlSource t a content Hevents Hmodelled) as Hparse.
  split.
  - intros Hread. unfold parseFromFile. by rewrite Hread, Hparse.
  - intros Hget. unfold parseFromUrl, get_options in *. rewrite Hget. simpl.
    by rewrite Hparse.
Qed.

Lemma entry_points_deliver_the_document_tree_witness :
  callback_calls (parseFromFile SaxReference.sax (λ _, inr nested_document) "nested.xml")
  = [JObj {[ "a" := json_of (Element "a" ∅ nested_content) ]}]
  ∧ callback_calls (parseFromUrl SaxReference.sax (λ _, inr (Response 200 nested_document))
                      "nested.xml" true 10 "utf-8" 20000)
    = [JObj {[ "a" := json_of (Element "a" ∅ nested_content) ]}].
Proof.
  destruct (entry_points_deliver_the_document_tree SaxReference.sax
              (λ _, inr nested_document) (λ _, inr (Response 200 nested_document))
              "nested.xml" nested_document true 10 "utf-8" 20000 "a" ∅ nested_content)
    as [Hfile Hurl].
  - vm_compute. reflexivity.
  - reflexivity.
  - split; [apply Hfile|apply Hurl]; reflexivity.
Defined.

(** * The accessors on what [parse] delivers *)

(** On an element that is an object ([typeof] gives ['object']),
    wherever the unguarded accessors return, the guarded ones return the
    same value, except that they report an absent attribute or text as
    [undefined] where the unguarded ones report [null].  A function is not
    such an element: the guard of the later revision turns it away, while
    [src/index.js] reads its [attr]. *)
Theorem guarded_accessors_agree_on_objects (h : heap) (element : value) :
  typeof element = "object" →
  (∀ attr v, Index.getElementAttr h element attr = Returns v →
     Revised.getElementAttr h element attr = Returns v
     ∨ (v = VNull ∧ Revised.getElementAttr h element attr = Returns VUndefined))
  ∧ (∀ v, Index.getElementText h element = Returns v →
       Revised.getElementText h element = Returns v
       ∨ (v = VNull ∧ Revised.getElementText h element = Returns VUndefined)).
Proof.
  intros Hobject.
  assert (element = VNull ∨ Revised.not_an_object element = false) as [->|Hguard].
  { destruct element; try discriminate Hobject; [by left|right..];
      unfold Revised.not_an_object; by rewrite Hobject. }
  { by split. }
  split.
  - intros attr v. unfold Index.getElementAttr, Revised.getElementAttr. rewrite Hguard.
    destruct (get_property h element "attr") as [attrs| |]; simpl; [|done..].
    destruct (has_property h attr attrs) as [[]| |]; simpl; [eauto| |done..].
    intros [= <-]. eauto.
  - intros v. unfold Index.getElementText, Revised.getElementText. rewrite Hguard.
    destruct (has_property h "innerText" element) as [[]| |]; simpl; [eauto| |done..].
    destruct (get_property h element "attr") as [attrs| |]; simpl; [|done..].
    destruct (has_property h "text" attrs) as [[]| |]; simpl; [eauto| |done..].
    intros [= <-]. eauto.
Qed.

Lemma guarded_accessors_agree_on_objects_witness :
  Index.getElementAttr [element_literal "a" ∅] (VRef 0) "x" = Returns VNull
  ∧ Revised.getElementAttr [element_literal "a" ∅] (VRef 0) "x" = Returns VUndefined.
Proof.
  assert (Index.getElementAttr [element_literal "a" ∅] (VRef 0) "x" = Returns VNull)
    as Hnull by reflexivity.
  split; [exact Hnull|].
  destruct (proj1 (guarded_accessors_agree_on_objects [element_literal "a" ∅] (VRef 0)
                     eq_refl) "x" VNull Hnull) as [Hsame|[_ Habsent]].
  - discriminate Hsame.
  - exact Habsent.
Defined.

Lemma parse_of_parse_heap (sax : string → list Sax.event) (xmlSource : string) :
  parse sax xmlSource = (λ r, tree r.2 r.1) <$> parse_heap sax xmlSource.
Proof.
  unfold parse, parse_heap.
  rewrite !(run_bind _ _ empty_store (Store [∅] [] "" []) (VRef 0) eq_refl).
  unfold mbind, M_bind.
  by destruct (write (VRef 0) (sax xmlSource) _) as [[[] s1]| |].
Qed.

Lemma parse_heap_document (sax : string → list Sax.event) (xmlSource : string)
    (t : string) (a : gmap string string) (content : list xml) :
  sax xmlSource = events_of (Element t a content) →
  modelled (Element t a content) = true →
  parse_heap sax xmlSource
  = Returns (VRef 0, [ {[ t := VRef 1 ]} ] ++ cells 1 (Element t a content)).
Proof.
  intros Hevents Hmodelled. unfold parse_heap. rewrite Hevents.
  rewrite (run_bind _ _ empty_store (Store [∅] [] "" []) (VRef 0) eq_refl).
  by rewrite (run_bind _ _ _ _ _ (write_document t a content Hmodelled)).
Qed.

Lemma attach_lookup_ne (o : obj) (k k' : string) (v : value) :
  k ≠ k' → attach o k' v !! k = o !! k.
Proof.
  intros Hne. unfold attach.
  destruct (own o k' || inherited k'); [destruct (default _ _)|];
    by rewrite lookup_insert_ne.
Qed.

Lemma fill_keeps (content : list xml) (n : nat) (o : obj) (k : string) :
  k ∉ child_tags content → k ≠ "innerText" →
  fill n o content !! k = o !! k.
Proof.
  intros Hno Hk. revert n o. induction content as [|c content IH]; intros n o; [done|].
  cbn [fill]. rewrite IH by (by eapply child_tags_tail).
  destruct c as [k' a cs|text|chunks]; simpl.
  - apply attach_lookup_ne. intros <-. apply Hno. left.
  - by rewrite lookup_insert_ne.
  - by rewrite lookup_insert_ne.
Qed.

Lemma fill_innerText (content : list xml) (n : nat) (o : obj) :
  "innerText" ∉ child_tags content →
  fill n o content !! "innerText"
  = match last (texts content) with
    | Some text => Some (VStr text)
    | None => o !! "innerText"
    end.
Proof.
  revert n o. induction content as [|c content IH]; intros n o Hno; [done|].
  cbn [fill]. rewrite IH by (by eapply child_tags_tail).
  rewrite texts_cons. destruct c as [k a cs|text|chunks]; cbn [item_text absorb]; cbv iota.
  - destruct (last (texts content)); [done|].
    apply attach_lookup_ne. intros <-. apply Hno. left.
  - rewrite last_cons.
    destruct (last (texts content)); [done|]. apply lookup_insert_eq.
  - rewrite last_cons.
    destruct (last (texts content)); [done|]. apply lookup_insert_eq.
Qed.

(** Reading back what was written: for a well-formed document whose
    root element has no child tagged [attr] or [innerText], the callback
    finds the root node under the root tag, [getElementAttr] on it returns
    the value of each attribute of the root's open tag, and
    [getElementText] returns the last text or CDATA section of the root,
    or else its attribute [text]; what is absent comes back as [null]
    from the unguarded accessors and as [undefined] from the guarded
    ones. *)
Theorem accessors_read_back_the_root
    (sax : string → list Sax.event) (xmlSource : string)
    (t : string) (a : gmap string string) (content : list xml) :
  sax xmlSource = events_of (Element t a content) →
  modelled (Element t a content) = true →
  "attr" ∉ child_tags content →
  "innerText" ∉ child_tags content →
  ∃ (jsonObj : value) (h : heap) (root : value),
    parse_heap sax xmlSource = Returns (jsonObj, h)
    ∧ parse sax xmlSource = Returns (tree h jsonObj)
    ∧ get_property h jsonObj t = Returns root
    ∧ (∀ k v, a !! k = Some v →
         Index.getElementAttr h root k = Returns (VStr v)
         ∧ Revised.getElementAttr h root k = Returns (VStr v))
    ∧ (∀ k, a !! k = None → inherited k = false →
         Index.getElementAttr h root k = Returns VNull
         ∧ Revised.getElementAttr h root k = Returns VUndefined)
    ∧ (∀ text, last (texts content) = Some text →
         Index.getElementText h root = Returns (VStr text)
         ∧ Revised.getElementText h root = Returns (VStr text))
    ∧ (texts content = [] →
         Index.getElementText h root
         = Returns (match a !! "text" with Some v => VStr v | None => VNull end)
         ∧ Revised.getElementText h root
           = Returns (match a !! "text" with Some v => VStr v | None => VUndefined end)).
Proof.
  intros Hevents Hmodelled Hattr Htext.
  pose proof (parse_heap_document sax xmlSource t a content Hevents Hmodelled) as Hheap.
  set (h := [ {[ t := VRef 1 ]} ] ++ cells 1 (Element t a content)) in *.
  set (node := fill 2 (element_literal t a) content).
  assert (h !! 1 = Some node) as Hnode by done.
  assert (node !! "attr" = Some (VAttrs a)) as Hnode_attr.
  { unfold node. by rewrite fill_keeps. }
  pose proof (fill_innerText content 2 (element_literal t a) Htext) as Hnode_text.
  fold node in Hnode_text.
  assert (h !! 0 = Some ({[ t := VRef 1 ]} : obj)) as Hroot by done.
  clearbody h node.
  exists (VRef 0), h, (VRef 1). split; [done|]. split; [|split].
  { by rewrite parse_of_parse_heap, Hheap. }
  { simpl. by rewrite Hroot, lookup_singleton_eq. }
  assert (∀ k absent,
            (attrs ← get_property h (VRef 1) "attr";
             present ← has_property h k attrs;
             if (present : bool) then get_property h attrs k else Returns absent)
            = Returns (match a !! k with
                       | Some v => VStr v
                       | None => if inherited k then VNative k else absent
                       end)) as Hread.
  { intros k absent. simpl. rewrite Hnode. simpl. rewrite Hnode_attr. simpl.
    destruct (a !! k) as [v|] eqn:Hk.
    - by rewrite (own_true _ _ _ Hk).
    - rewrite (own_false _ _ Hk). simpl. by destruct (inherited k). }
  split; [|split; [|split]].
  - intros k v Hk. unfold Index.getElementAttr, Revised.getElementAttr.
    simpl Revised.not_an_object. cbv iota. by rewrite !Hread, Hk.
  - intros k Hk Hinh. unfold Index.getElementAttr, Revised.getElementAttr.
    simpl Revised.not_an_object. cbv iota. by rewrite !Hread, Hk, Hinh.
  - intros text Hlast. rewrite Hlast in Hnode_text.
    unfold Index.getElementText, Revised.getElementText.
    simpl. rewrite Hnode. simpl.
    by rewrite (own_true _ _ _ Hnode_text), Hnode_text.
  - intros Hnone. rewrite Hnone in Hnode_text. simpl in Hnode_text.
    unfold Index.getElementText, Revised.getElementText.
    simpl Revised.not_an_object. cbv iota.
    assert (has_property h "innerText" (VRef 1) = Returns false) as ->.
    { simpl. rewrite Hnode. by rewrite (own_false _ _ Hnode_text). }
    cbn [mbind outcome_bind]. by rewrite !Hread.
Qed.

Lemma accessors_read_back_the_root_witness :
  ∃ (jsonObj : value) (h : heap) (root : value),
    parse_heap SaxReference.sax id_and_text_document = Returns (jsonObj, h)
    ∧ get_property h jsonObj "a" = Returns root
    ∧ Index.getElementAttr h root "id" = Returns (VStr "7")
    ∧ Revised.getElementAttr h root "class" = Returns VUndefined
    ∧ Index.getElementText h root = Returns (VStr "hi").
Proof.
  destruct (accessors_read_back_the_root SaxReference.sax id_and_text_document
              "a" {[ "id" := "7" ]} [ Chars "hi" ])
    as (jsonObj & h & root & Hheap & _ & Hroot & Hattr & Habsent & Htext & _).
  - vm_compute. reflexivity.
  - reflexivity.
  - apply not_elem_of_nil.
  - apply not_elem_of_nil.
  - exists jsonObj, h, root. split; [exact Hheap|]. split; [exact Hroot|].
    split; [|split].
    + apply (Hattr "id" "7"). reflexivity.
    + apply (Habsent "class"); reflexivity.
    + apply (Htext "hi"). reflexivity.
Defined.
